(** * BeQuic: the buffered read / seek core of [BeQuicSpdyClient]

    A shallow embedding of [src/chromium/be_quic_spdy_client.cc]:
    [read_body], [seek_in_buffer], [close_current_stream], [on_data] and
    [is_buffer_sufficient], over an explicit client state.  The consumer
    thread blocks inside [read_body]; blocking is modelled by a resumption
    monad whose [Yield] nodes are the points where the mutex is not held
    and the delivery thread may run. *)

From Stdlib Require Import ZArith List Bool Lia.
Import ListNotations.
Open Scope Z_scope.

(** ** Machine integers *)

Definition INT_MAX : Z := 2147483647.
Definition INT64_MAX : Z := 9223372036854775807.

(** Conversion to [int64_t] (two's complement wrap-around). *)
Definition to_int64 (z : Z) : Z := (z + 2 ^ 63) mod 2 ^ 64 - 2 ^ 63.

(** Conversion to [int]. *)
Definition to_int (z : Z) : Z := (z + 2 ^ 31) mod 2 ^ 32 - 2 ^ 31.

(** Conversion to [size_t] (64-bit unsigned). *)
Definition to_size_t (z : Z) : Z := z mod 2 ^ 64.

(** ** Constants of the translation unit *)

Definition AVSEEK_SIZE : Z := 65536.   (* 0x10000 *)
Definition SEEK_SET : Z := 0.
Definition SEEK_CUR : Z := 1.
Definition SEEK_END : Z := 2.
Definition kReadBlockSize : Z := 32768.

(** Modelled from the spec: the enumeration [BeQuicErrorCode] is declared in
    [be_quic_define.h], which is not among the sources.  Only the five
    enumerators this file uses are listed (section 7 of the specification
    names them InvalidArgument, InvalidState, NotSupported, EndOfStream and
    BufferMiss and treats them as distinct statuses); their numeric values
    are not needed because results keep the status symbolic. *)
Inductive BeQuicErrorCode : Type :=
| kBeQuicErrorCode_Invalid_Param
| kBeQuicErrorCode_Invalid_State
| kBeQuicErrorCode_Not_Supported
| kBeQuicErrorCode_Eof
| kBeQuicErrorCode_Buffer_Not_Hit.

(** The integer a method returns: either one of the status enumerators or a
    plain number (a byte count, an offset, the content length). *)
Inductive retval : Type :=
| Value (n : Z)
| Status (e : BeQuicErrorCode).

(** Destination pointers ([buf] of [read_body], [target_off] of
    [seek_in_buffer]) are only compared with [NULL]; what the method stores
    through them is returned next to its result. *)
Inductive pointer : Type := NULL | NonNull.

Definition is_null (p : pointer) : bool :=
  match p with NULL => true | NonNull => false end.

(** ** Client state *)

Definition byte := Byte.byte.

(** Calls made on the transport session by [close_current_stream]. *)
Inductive session_call : Type :=
| SendRstStream (id : Z)     (* (id, QUIC_STREAM_CANCELLED, 0) *)
| CloseStream (id : Z).

(** The session is an external collaborator: it is represented by the log of
    the calls made on it, oldest first. *)
Definition QuicSession := list session_call.

(** The stream handle passed to [on_data]: its id and what
    [check_content_length] answers (-1 when the length is unknown). *)
Record QuicSpdyClientStream : Type := mkStream {
  id : Z;
  check_content_length : Z
}.

(** The members of [BeQuicSpdyClient] the five methods touch.
    [response_buff_] is the stream buffer shared by [istream_] and
    [ostream_]: a FIFO of bytes, head first.  [session] is what
    [QuicClientBase::session()] returns ([None] for a null pointer).
    [content_length_] and [read_offset_] are [int64_t], the type
    [seek_in_buffer] computes with them in; -1 is the unknown length. *)
Record BeQuicSpdyClient : Type := mkClient {
  current_stream_id_ : Z;
  got_first_data_ : bool;
  content_length_ : Z;
  first_data_time_ : Z;
  read_offset_ : Z;
  response_buff_ : list byte;
  session : option QuicSession
}.

Definition set_current_stream_id (v : Z) (c : BeQuicSpdyClient) :=
  mkClient v (got_first_data_ c) (content_length_ c) (first_data_time_ c)
           (read_offset_ c) (response_buff_ c) (session c).

Definition set_first_data (len now : Z) (c : BeQuicSpdyClient) :=
  mkClient (current_stream_id_ c) true len now
           (read_offset_ c) (response_buff_ c) (session c).

Definition set_read_offset (v : Z) (c : BeQuicSpdyClient) :=
  mkClient (current_stream_id_ c) (got_first_data_ c) (content_length_ c)
           (first_data_time_ c) v (response_buff_ c) (session c).

Definition set_response_buff (b : list byte) (c : BeQuicSpdyClient) :=
  mkClient (current_stream_id_ c) (got_first_data_ c) (content_length_ c)
           (first_data_time_ c) (read_offset_ c) b (session c).

Definition set_session (s : option QuicSession) (c : BeQuicSpdyClient) :=
  mkClient (current_stream_id_ c) (got_first_data_ c) (content_length_ c)
           (first_data_time_ c) (read_offset_ c) (response_buff_ c) s.

(** Modelled from the spec: the member initialisers live in
    [be_quic_spdy_client.h], which is not among the sources.  Section 3 of
    the specification: the state is created empty, with no stream bound, the
    content length unknown and the read offset 0. *)
Definition new_client (s : option QuicSession) : BeQuicSpdyClient :=
  mkClient 0 false (-1) 0 0 [] s.

(** ** The stream buffer *)

(** [response_buff_.size()]. *)
Definition buff_size (c : BeQuicSpdyClient) : Z :=
  Z.of_nat (length (response_buff_ c)).

(** [response_buff_.consume(n)]: drop [n] bytes from the head.  Both call
    sites pass at most the retained size. *)
Definition consume (n : Z) (b : list byte) : list byte :=
  skipn (Z.to_nat n) b.

(** ** [is_buffer_sufficient] *)

Definition is_buffer_sufficient (c : BeQuicSpdyClient) : bool :=
  let size := buff_size c in
  if content_length_ c =? -1 then
    (* Cannot determine end of stream. *)
    0 <? size
  else if size =? 0 then
    false
  else if to_int64 (content_length_ c - read_offset_ c) <? kReadBlockSize then
    true
  else if size <? kReadBlockSize then
    false
  else
    true.

(** ** Blocking computations *)

(** Where the consumer thread gives the processor away without holding
    [mutex_]: while it acquires the lock, and inside the two waits on
    [cond_] (which release the lock and take it again before returning). *)
Inductive yield : Type :=
| AcquireLock
| WaitUntil (ms : Z)      (* cond_.wait_until(lock, now + ms) *)
| WaitForever.            (* cond_.wait(lock) *)

Definition is_cond_wait (y : yield) : bool :=
  match y with AcquireLock => false | _ => true end.

(** A computation either finishes with a result and a final state, or yields
    in some state and continues from whatever state the client is in when
    the thread runs again. *)
Inductive blocking (A : Type) : Type :=
| Done (a : A) (c : BeQuicSpdyClient)
| Yield (y : yield) (c : BeQuicSpdyClient)
        (k : BeQuicSpdyClient -> blocking A).

Arguments Done {A} a c.
Arguments Yield {A} y c k.

Definition prog (A : Type) : Type := BeQuicSpdyClient -> blocking A.

Section Monad.
Context {A B : Type}.

Fixpoint bind_blocking (m : blocking A) (f : A -> prog B) : blocking B :=
  match m with
  | Done a c => f a c
  | Yield y c k => Yield y c (fun c' => bind_blocking (k c') f)
  end.

Definition bind (m : prog A) (f : A -> prog B) : prog B :=
  fun c => bind_blocking (m c) f.

End Monad.

Definition ret {A : Type} (a : A) : prog A := fun c => Done a c.

Definition yield_at (y : yield) : prog unit :=
  fun c => Yield y c (fun c' => Done tt c').

Notation "x <- m ;; f" := (bind m (fun x => f))
  (at level 61, m at next level, right associativity).
Notation "m ;;; f" := (bind m (fun _ => f))
  (at level 61, right associativity).

(** A [while] loop whose body says whether it left through [break].  The
    result is [false] when [fuel] iterations were not enough. *)
Inductive loop_exit : Type := Break | Continue.

Fixpoint while_ (fuel : nat) (cond : BeQuicSpdyClient -> bool)
         (body : prog loop_exit) : prog bool :=
  fun c =>
    match fuel with
    | O => Done false c
    | S fuel' =>
        if cond c then
          bind_blocking (body c)
            (fun e => match e with
                      | Break => ret true
                      | Continue => while_ fuel' cond body
                      end)
        else Done true c
    end.

(** ** [read_body] *)

Record read_result : Type := mkRead {
  read_ret : retval;
  read_data : list byte     (* the bytes stored through [buf], in order *)
}.

(** Lines 116-123: copy out of the stream buffer and advance the offset. *)
Definition copy_out (size : Z) (c : BeQuicSpdyClient)
  : read_result * BeQuicSpdyClient :=
  let read_len := Z.min (to_size_t size) (buff_size c) in
  if read_len =? 0 then
    (mkRead (Value 0) [], c)
  else
    (mkRead (Value (to_int read_len))
            (firstn (Z.to_nat read_len) (response_buff_ c)),
     set_read_offset (to_int64 (read_offset_ c + read_len))
       (set_response_buff (skipn (Z.to_nat read_len) (response_buff_ c)) c)).

(** Lines 105-115: the body of the wait loop; it always leaves by [break]. *)
Definition wait_once (timeout : Z) : prog loop_exit :=
  (if 0 <? timeout then yield_at (WaitUntil timeout)
   else if timeout <? 0 then yield_at WaitForever
   else ret tt) ;;;
  ret Break.

(** Lines 116-123 as the last step of a read. *)
Definition copy_out_and_return (size : Z) : prog (option read_result) :=
  fun c => Done (Some (fst (copy_out size c))) (snd (copy_out size c)).

(** Lines 105-123, which run holding [mutex_].  [None] is returned only
    when the wait loop runs out of [fuel]. *)
Definition locked_read (fuel : nat) (size timeout : Z)
  : prog (option read_result) :=
  finished <- while_ fuel (fun c => negb (is_buffer_sufficient c))
                     (wait_once timeout) ;;
  if finished : bool then copy_out_and_return size else ret None.

Definition read_body (fuel : nat) (buf : pointer) (size timeout : Z)
  : prog (option read_result) :=
  fun c =>
    if is_null buf || (size =? 0) then
      Done (Some (mkRead (Status kBeQuicErrorCode_Invalid_Param) [])) c
    else if (0 <? content_length_ c) && (content_length_ c <=? read_offset_ c)
    then
      Done (Some (mkRead (Status kBeQuicErrorCode_Eof) [])) c
    else
      (yield_at AcquireLock ;;; locked_read fuel size timeout) c.

(** ** [seek_in_buffer] *)

Record seek_result : Type := mkSeek {
  seek_ret : retval;
  seek_target : option Z    (* the value stored through [target_off], if any *)
}.

(** Lines 154-161: the offset a request resolves to, [None] for a [whence]
    that is none of the three positioning modes. *)
Definition resolve_offset (off whence : Z) (c : BeQuicSpdyClient) : option Z :=
  if whence =? SEEK_CUR then Some (to_int64 (off + read_offset_ c))
  else if whence =? SEEK_END then Some (to_int64 (off + content_length_ c))
  else if negb (whence =? SEEK_SET) then None
  else Some off.

(** Lines 163-183: the range test and the buffer-hit test on a resolved
    offset. *)
Definition seek_resolved (off : Z) (target_off : pointer)
           (c : BeQuicSpdyClient) : seek_result * BeQuicSpdyClient :=
  if off <? 0 then
    (mkSeek (Status kBeQuicErrorCode_Invalid_Param) None, c)
  else
    (* Check if hit the buffer. *)
    let left_size := to_int64 (buff_size c) in
    let consume_size := to_int64 (off - read_offset_ c) in
    if (0 <? consume_size) && (consume_size <? left_size) then
      (mkSeek (Value off) None,
       set_read_offset off
         (set_response_buff (consume consume_size (response_buff_ c)) c))
    else
      (mkSeek (Status kBeQuicErrorCode_Buffer_Not_Hit)
              (if is_null target_off then None else Some off),
       c).

Definition seek_in_buffer (off whence : Z) (target_off : pointer)
           (c : BeQuicSpdyClient) : seek_result * BeQuicSpdyClient :=
  if content_length_ c =? -1 then
    (mkSeek (Status kBeQuicErrorCode_Not_Supported) None, c)
  else if whence =? AVSEEK_SIZE then
    (mkSeek (Value (content_length_ c)) None, c)
  else if ((whence =? SEEK_CUR) && (off =? 0))
          || ((whence =? SEEK_SET) && (off =? read_offset_ c)) then
    (mkSeek (Value off) None, c)
  else if (content_length_ c =? -1) && (whence =? SEEK_END) then
    (mkSeek (Status kBeQuicErrorCode_Invalid_State) None, c)
  else
    match resolve_offset off whence c with
    | None => (mkSeek (Status kBeQuicErrorCode_Invalid_Param) None, c)
    | Some off' => seek_resolved off' target_off c
    end.

(** ** [close_current_stream] *)

Definition close_current_stream (c : BeQuicSpdyClient)
  : bool * BeQuicSpdyClient :=
  if current_stream_id_ c =? 0 then (false, c)
  else
    match session c with
    | None => (false, c)
    | Some s =>
        (* Close quic stream, send Reset frame to close peer stream. *)
        let s' := s ++ [SendRstStream (current_stream_id_ c);
                        CloseStream (current_stream_id_ c)] in
        (true,
         (* Clear cached data. *)
         set_response_buff (consume (buff_size c) (response_buff_ c))
           (set_read_offset 0
              (set_current_stream_id 0 (set_session (Some s') c))))
    end.

(** ** [on_data] *)

(** The delivery callback.  [now] is what [base::Time::Now()] answers;
    [buf] is the memory [buf] points to ([None] for a null pointer), of
    which the first [size] bytes are written.  The boolean tells whether
    [cond_.notify_all()] was called. *)
Definition on_data (now : Z) (stream : option QuicSpdyClientStream)
           (buf : option (list byte)) (size : Z) (c : BeQuicSpdyClient)
  : BeQuicSpdyClient * bool :=
  match stream with
  | None => (c, false)
  | Some st =>
      let c1 := if current_stream_id_ c =? 0
                then set_current_stream_id (id st) c else c in
      let c2 := if got_first_data_ c1 then c1
                else set_first_data (check_content_length st) now c1 in
      match buf with
      | Some bytes =>
          if 0 <? size then
            let c3 := set_response_buff
                        (response_buff_ c2 ++ firstn (Z.to_nat size) bytes) c2 in
            (c3, is_buffer_sufficient c3)
          else (c2, false)
      | None => (c2, false)
      end
  end.

(** ** Producer and consumer together *)

(** What the two threads do, in the order it happens.  The delivery thread
    hands over one chunk at a time; the consumer starts a read, and a read
    that yielded goes on when [Resume] schedules it again.  Deliveries may
    fall anywhere, in particular between a read's yield and its resumption. *)
Inductive action : Type :=
| Deliver (now : Z) (st : QuicSpdyClientStream) (chunk : list byte)
| Read (buf : pointer) (size timeout : Z)
| Resume.

Record system : Type := mkSystem {
  client : BeQuicSpdyClient;
  (* the read in progress, when the consumer has yielded *)
  pending : option (BeQuicSpdyClient -> blocking (option read_result));
  (* the bytes the reads have handed to the consumer so far *)
  received : list byte
}.

Definition settle (b : blocking (option read_result)) (got : list byte)
  : system :=
  match b with
  | Done r c =>
      mkSystem c None
        (got ++ match r with Some r' => read_data r' | None => [] end)
  | Yield _ c k => mkSystem c (Some k) got
  end.

(** One action.  A single consumer cannot start a read while another one is
    in progress, and [Resume] without a read in progress does nothing. *)
Definition step (fuel : nat) (s : system) (a : action) : system :=
  match a, pending s with
  | Deliver now st chunk, _ =>
      mkSystem
        (fst (on_data now (Some st) (Some chunk) (Z.of_nat (length chunk))
                      (client s)))
        (pending s) (received s)
  | Read buf size timeout, None =>
      settle (read_body fuel buf size timeout (client s)) (received s)
  | Read _ _ _, Some _ => s
  | Resume, Some k => settle (k (client s)) (received s)
  | Resume, None => s
  end.

Definition run (fuel : nat) (sched : list action) (s : system) : system :=
  fold_left (step fuel) sched s.

(** The chunks a schedule delivers, concatenated in delivery order. *)
Fixpoint delivered (sched : list action) : list byte :=
  match sched with
  | [] => []
  | Deliver _ _ chunk :: rest => chunk ++ delivered rest
  | _ :: rest => delivered rest
  end.

(** ** Notions used by the statements *)

(** The retained window [[read_offset_, read_offset_ + size)] lies within
    the offsets an [int64_t] can hold; the arithmetic of the methods is
    exact on such states. *)
Definition window_in_range (c : BeQuicSpdyClient) : Prop :=
  0 <= read_offset_ c /\ read_offset_ c + buff_size c <= INT64_MAX.

(** The declared length as the specification sees it: unknown, or a number. *)
Definition known_length (c : BeQuicSpdyClient) : option Z :=
  if content_length_ c =? -1 then None else Some (content_length_ c).

(** The four rules of section 4.3 of the specification, in its words and in
    its order, over unbounded integers. *)
Definition sufficient_rules (content_length : option Z)
           (read_offset retained : Z) : bool :=
  match content_length with
  | None => 0 <? retained                               (* rule 1 *)
  | Some len =>
      if retained =? 0 then false                       (* rule 2 *)
      else if len - read_offset <? 32 * 1024 then true  (* rule 3 *)
      else 32 * 1024 <=? retained                       (* rule 4 *)
  end.


(** The consumer running with the delivery thread idle.  The lock is free,
    so acquiring it goes on in the same state; a timed wait runs out and
    goes on in the same state; an indefinite wait is never signalled, and
    the computation does not return: the answer is [None] however large [n]
    is.  [n] bounds the number of yields that are passed. *)
Fixpoint alone {A : Type} (n : nat) (b : blocking A) {struct b}
  : option (A * BeQuicSpdyClient) :=
  match b with
  | Done a c => Some (a, c)
  | Yield WaitForever _ _ => None
  | Yield _ c k =>
      match n with
      | O => None
      | S n' => alone n' (k c)
      end
  end.

(** [finishes_with f c b]: the computation [b], started or resumed in state
    [c], changes nothing before it yields, and whatever state [c'] it is
    resumed in, it ends with the result and the state that [f] gives on the
    state it was last resumed in. *)
Inductive finishes_with {A : Type}
          (f : BeQuicSpdyClient -> A * BeQuicSpdyClient)
  : BeQuicSpdyClient -> blocking A -> Prop :=
| finishes_now (c : BeQuicSpdyClient) :
    finishes_with f c (Done (fst (f c)) (snd (f c)))
| finishes_later (y : yield) (c : BeQuicSpdyClient)
                 (k : BeQuicSpdyClient -> blocking A) :
    (forall c', finishes_with f c' (k c')) ->
    finishes_with f c (Yield y c k).

(** [cond_waits_at_most n b]: on every path, whatever states [b] is resumed
    in, it waits on the condition at most [n] times before it is done. *)
Inductive cond_waits_at_most {A : Type} : nat -> blocking A -> Prop :=
| waits_done (n : nat) (a : A) (c : BeQuicSpdyClient) :
    cond_waits_at_most n (Done a c)
| waits_lock (n : nat) (c : BeQuicSpdyClient)
             (k : BeQuicSpdyClient -> blocking A) :
    (forall c', cond_waits_at_most n (k c')) ->
    cond_waits_at_most n (Yield AcquireLock c k)
| waits_cond (n : nat) (y : yield) (c : BeQuicSpdyClient)
             (k : BeQuicSpdyClient -> blocking A) :
    is_cond_wait y = true ->
    (forall c', cond_waits_at_most n (k c')) ->
    cond_waits_at_most (S n) (Yield y c k).

(** [first_wait P b]: the first condition wait on any path of [b], if there
    is one, has a kind and a continuation that satisfy [P]. *)
Inductive first_wait {A : Type}
          (P : yield -> (BeQuicSpdyClient -> blocking A) -> Prop)
  : blocking A -> Prop :=
| first_wait_done (a : A) (c : BeQuicSpdyClient) :
    first_wait P (Done a c)
| first_wait_lock (c : BeQuicSpdyClient)
                  (k : BeQuicSpdyClient -> blocking A) :
    (forall c', first_wait P (k c')) ->
    first_wait P (Yield AcquireLock c k)
| first_wait_cond (y : yield) (c : BeQuicSpdyClient)
                  (k : BeQuicSpdyClient -> blocking A) :
    is_cond_wait y = true ->
    P y k ->
    first_wait P (Yield y c k).

(** The wait [read_body] performs for a non-zero [timeout]. *)
Definition wait_for (timeout : Z) : yield :=
  if 0 <? timeout then WaitUntil timeout else WaitForever.

(** The two shapes the locked part of a read can have in a state [c]:
    straight to the copy, or one wait and then the copy from whatever state
    the thread wakes up in. *)
Inductive locked_read_shape (size timeout : Z) (c : BeQuicSpdyClient)
  : blocking (option read_result) -> Prop :=
| shape_copy :
    is_buffer_sufficient c = true \/ timeout = 0 ->
    locked_read_shape size timeout c
      (Done (Some (fst (copy_out size c))) (snd (copy_out size c)))
| shape_wait (k : BeQuicSpdyClient -> blocking (option read_result)) :
    is_buffer_sufficient c = false ->
    timeout <> 0 ->
    (forall c', k c' = Done (Some (fst (copy_out size c')))
                            (snd (copy_out size c'))) ->
    locked_read_shape size timeout c (Yield (wait_for timeout) c k).

Create HintDb bequic discriminated.
#[export] Hint Constructors finishes_with cond_waits_at_most first_wait
  : bequic.

(** ** Sample states *)

Definition sample_chunk : list byte :=
  [Byte.x48; Byte.x54; Byte.x54; Byte.x50; Byte.x2f; Byte.x33].

(** A stream bound, 1000 bytes declared, 100 of them read, 6 retained. *)
Definition sample_client : BeQuicSpdyClient :=
  mkClient 5 true 1000 0 100 sample_chunk (Some []).

(** The same stream with everything read. *)
Definition drained_client : BeQuicSpdyClient :=
  mkClient 5 true 1000 0 1000 [] (Some []).

(** A stream that declared a length of 0. *)
Definition empty_stream_client : BeQuicSpdyClient :=
  mkClient 5 true 0 0 0 [] (Some []).

(** A stream whose length is unknown. *)
Definition unknown_length_client : BeQuicSpdyClient :=
  mkClient 5 true (-1) 0 100 sample_chunk (Some []).

(** ** Stream order *)

(** [in_order w b]: the read [b], started with the bytes [w] retained, hands
    over a prefix of what is retained when it finishes and leaves the rest
    in the window; until then it leaves the window alone. *)
Inductive in_order : list byte -> blocking (option read_result) -> Prop :=
| in_order_done (w : list byte) (r : read_result) (c : BeQuicSpdyClient) :
    w = read_data r ++ response_buff_ c ->
    in_order w (Done (Some r) c)
| in_order_yield (w : list byte) (y : yield) (c : BeQuicSpdyClient)
                 (k : BeQuicSpdyClient -> blocking (option read_result)) :
    response_buff_ c = w ->
    (forall c', in_order (response_buff_ c') (k c')) ->
    in_order w (Yield y c k).

(** The read in progress, if any, is in order from whatever state it is
    resumed in. *)
Definition pending_in_order (s : system) : Prop :=
  match pending s with
  | Some k => forall c', in_order (response_buff_ c') (k c')
  | None => True
  end.

(** The chunk an action delivers. *)
Definition chunk_of (a : action) : list byte :=
  match a with
  | Deliver _ _ chunk => chunk
  | _ => []
  end.

(** A schedule: two chunks arrive, a read of 4 bytes finds the lock free and
    enough data, a third chunk arrives, a read of 100 bytes drains the rest. *)
Definition sample_schedule : list action :=
  [Deliver 7 (mkStream 5 11) [Byte.x61; Byte.x62; Byte.x63];
   Deliver 8 (mkStream 5 11) [Byte.x64; Byte.x65];
   Read NonNull 4 0; Resume;
   Deliver 9 (mkStream 5 11) [Byte.x66; Byte.x67];
   Read NonNull 100 0; Resume].

(** The state the specification uses for its seek examples: offset 100 and
    the window [[100, 500)] retained. *)
Definition window_100_500 : BeQuicSpdyClient :=
  mkClient 5 true 1000 0 100 (repeat Byte.x2a 400) (Some []).

(** Offset 100 reached and nothing retained. *)
Definition caught_up_client : BeQuicSpdyClient :=
  mkClient 5 true 1000 0 100 [] (Some []).

(** A state a client reaches with the length unknown: a first chunk of 6
    bytes of a stream that declares no length (-1) arrives, and a read takes
    4 of them. *)
Definition reached_unknown_client : BeQuicSpdyClient :=
  client (run 1 [Deliver 7 (mkStream 5 (-1)) sample_chunk;
                 Read NonNull 4 0; Resume]
              (mkSystem (new_client (Some [])) None [])).

(** A state a client reaches: a first chunk of 6 bytes of a stream that
    declares 1000 bytes arrives, and a read takes 4 of them. *)
Definition reached_client : BeQuicSpdyClient :=
  client (run 1 [Deliver 7 (mkStream 5 1000) sample_chunk;
                 Read NonNull 4 0; Resume]
              (mkSystem (new_client (Some [])) None [])).

(** ** Sequences of callbacks *)

(** The arguments of one [on_data] call. *)
Record on_data_call : Type := mkCall {
  call_now : Z;
  call_stream : option QuicSpdyClientStream;
  call_buf : option (list byte);
  call_size : Z
}.

(** The transport calling [on_data] several times in a row. *)
Definition on_data_calls (calls : list on_data_call) (c : BeQuicSpdyClient)
  : BeQuicSpdyClient :=
  fold_left
    (fun c' call =>
       fst (on_data (call_now call) (call_stream call) (call_buf call)
                    (call_size call) c'))
    calls c.

(** Two callbacks after the first: another chunk of the same stream, and a
    chunk of a stream with another id that declares another length. *)
Definition later_calls : list on_data_call :=
  [mkCall 8 (Some (mkStream 5 1000)) (Some [Byte.x61; Byte.x62]) 2;
   mkCall 9 (Some (mkStream 9 77)) (Some [Byte.x63]) 1].

(** Case analysis on every test [on_data] makes. *)
Ltac on_data_cases c stream buf :=
  destruct c; unfold on_data; destruct stream as [?st|]; simpl;
  [|try reflexivity; auto];
  try (destruct buf as [?bytes|]; simpl);
  repeat match goal with
         | |- context [if ?b then _ else _] => destruct b eqn:?; simpl
         end.

(** A client no stream was ever bound to, with a session. *)
Definition fresh_client : BeQuicSpdyClient := new_client (Some []).

(** A full block of retained bytes. *)
Definition full_block_client : BeQuicSpdyClient :=
  mkClient 5 true 100000 0 0 (repeat Byte.x2a (Z.to_nat 32768)) (Some []).

(** Six bytes short of the end of a stream of 1000 bytes, six retained. *)
Definition tail_client : BeQuicSpdyClient :=
  mkClient 5 true 1000 0 994 sample_chunk (Some []).

(** What a seek can do to the client: leave it as it is, or - on a buffer
    hit at the resolved offset [T] - drop the head of the window and move
    the read offset to [T]. *)
Inductive seek_outcome (off whence : Z) (c : BeQuicSpdyClient)
  : seek_result * BeQuicSpdyClient -> Prop :=
| seek_same (r : seek_result) :
    seek_outcome off whence c (r, c)
| seek_moved (T : Z) :
    resolve_offset off whence c = Some T ->
    0 <= T ->
    0 < to_int64 (T - read_offset_ c) < to_int64 (buff_size c) ->
    seek_outcome off whence c
      (mkSeek (Value T) None,
       set_read_offset T
         (set_response_buff
            (consume (to_int64 (T - read_offset_ c)) (response_buff_ c)) c)).

(** [accounts c b]: the read [b], started or resumed in state [c], hands
    over a prefix of the window of [c] and advances the read offset of [c]
    by the number of bytes handed over; until it finishes it leaves both
    alone.  Resumptions are considered in states whose window is in range. *)
Inductive accounts (c0 : BeQuicSpdyClient)
  : blocking (option read_result) -> Prop :=
| accounts_done (r : read_result) (c : BeQuicSpdyClient) :
    response_buff_ c0 = read_data r ++ response_buff_ c ->
    read_offset_ c = read_offset_ c0 + Z.of_nat (length (read_data r)) ->
    accounts c0 (Done (Some r) c)
| accounts_yield (y : yield) (c : BeQuicSpdyClient)
                 (k : BeQuicSpdyClient -> blocking (option read_result)) :
    response_buff_ c = response_buff_ c0 ->
    read_offset_ c = read_offset_ c0 ->
    (forall c', window_in_range c' -> accounts c' (k c')) ->
    accounts c0 (Yield y c k).

Definition pending_accounts (s : system) : Prop :=
  match pending s with
  | Some k => forall c', window_in_range c' -> accounts c' (k c')
  | None => True
  end.

(** * Properties *)

(** ** Integer conversions *)

Lemma to_int64_id (z : Z) : - 2 ^ 63 <= z < 2 ^ 63 -> to_int64 z = z.
Proof.
  intros H. unfold to_int64.
  rewrite Z.mod_small; lia.
Qed.

Lemma to_int_id (z : Z) : - 2 ^ 31 <= z < 2 ^ 31 -> to_int z = z.
Proof.
  intros H. unfold to_int.
  rewrite Z.mod_small; lia.
Qed.

Lemma to_size_t_id (z : Z) : 0 <= z < 2 ^ 64 -> to_size_t z = z.
Proof.
  intros H. unfold to_size_t. now apply Z.mod_small.
Qed.

Lemma buff_size_nonneg (c : BeQuicSpdyClient) : 0 <= buff_size c.
Proof. unfold buff_size. lia. Qed.

(** ** The sufficiency predicate *)

(** C2: on every state where the number of bytes still expected,
    [content_length_ - read_offset_], is an [int64_t],
    [is_buffer_sufficient] answers what the four ordered rules of the
    specification answer: with the length unknown, true iff something is
    retained; else false when nothing is retained; else true when fewer than
    32 KiB remain to be read; else true iff at least 32 KiB are retained. *)
Theorem is_buffer_sufficient_rules (c : BeQuicSpdyClient) :
  - 2 ^ 63 <= content_length_ c - read_offset_ c < 2 ^ 63 ->
  is_buffer_sufficient c =
  sufficient_rules (known_length c) (read_offset_ c) (buff_size c).
Proof.
  intros Hremaining.
  pose proof (buff_size_nonneg c) as Hsize.
  unfold is_buffer_sufficient, sufficient_rules, known_length, kReadBlockSize.
  destruct (content_length_ c =? -1) eqn:Hunknown; [reflexivity|].
  destruct (buff_size c =? 0) eqn:Hempty; [reflexivity|].
  rewrite to_int64_id by assumption.
  change (32 * 1024) with 32768.
  destruct (content_length_ c - read_offset_ c <? 32768); [reflexivity|].
  destruct (Z.ltb_spec (buff_size c) 32768);
    destruct (Z.leb_spec 32768 (buff_size c)); (reflexivity || lia).
Qed.

Example sufficient_near_tail :
  is_buffer_sufficient (mkClient 5 true 1000 0 990 sample_chunk None) = true.
Proof. reflexivity. Qed.

Lemma is_buffer_sufficient_rules_witness :
  - 2 ^ 63 <= content_length_ sample_client - read_offset_ sample_client < 2 ^ 63
  /\ is_buffer_sufficient sample_client =
     sufficient_rules (known_length sample_client)
                      (read_offset_ sample_client) (buff_size sample_client).
Proof.
  split.
  - simpl. lia.
  - apply (is_buffer_sufficient_rules sample_client). simpl. lia.
Defined.

(** ** Reading *)

(** State setters followed by getters. *)
Lemma set_same (c : BeQuicSpdyClient) :
  set_read_offset (read_offset_ c) (set_response_buff (response_buff_ c) c) = c.
Proof. destruct c; reflexivity. Qed.

(** What [read_body] is once its two early exits are passed. *)
Lemma read_body_enters (fuel : nat) (buf : pointer) (size timeout : Z)
      (c : BeQuicSpdyClient) :
  is_null buf || (size =? 0) = false ->
  (0 <? content_length_ c) && (content_length_ c <=? read_offset_ c) = false ->
  read_body fuel buf size timeout c =
  Yield AcquireLock c (fun c' => locked_read fuel size timeout c').
Proof.
  intros Hargs Heof. unfold read_body. rewrite Hargs, Heof. reflexivity.
Qed.

(** With the lock held and enough data, or with a zero timeout, the read
    goes straight to the copy. *)
Lemma locked_read_no_wait (fuel : nat) (size timeout : Z)
      (c : BeQuicSpdyClient) :
  is_buffer_sufficient c = true \/ timeout = 0 ->
  locked_read (S fuel) size timeout c = copy_out_and_return size c.
Proof.
  intros H. unfold locked_read, bind. simpl.
  destruct (is_buffer_sufficient c) eqn:Hs; simpl; [reflexivity|].
  destruct H as [H|H]; [discriminate|]. subst timeout. reflexivity.
Qed.

(** Otherwise it waits once, and whatever state it wakes up in it goes to
    the copy. *)
Lemma locked_read_wait (fuel : nat) (size timeout : Z)
      (c : BeQuicSpdyClient) :
  is_buffer_sufficient c = false -> timeout <> 0 ->
  exists k,
    locked_read (S fuel) size timeout c = Yield (wait_for timeout) c k /\
    forall c', k c' = copy_out_and_return size c'.
Proof.
  intros Hs Ht. unfold locked_read, bind, wait_for. simpl. rewrite Hs. simpl.
  unfold wait_once, bind.
  destruct (Z.ltb_spec 0 timeout).
  - simpl. eexists. split; [reflexivity|]. intros c'. reflexivity.
  - destruct (Z.ltb_spec timeout 0); [|lia].
    simpl. eexists. split; [reflexivity|]. intros c'. reflexivity.
Qed.

(** The locked part of a read has one of the two shapes, for every fuel
    that lets the loop start. *)
Lemma locked_read_cases (fuel : nat) (size timeout : Z)
      (c : BeQuicSpdyClient) :
  locked_read_shape size timeout c (locked_read (S fuel) size timeout c).
Proof.
  destruct (is_buffer_sufficient c) eqn:Hs.
  - rewrite locked_read_no_wait by (now left). apply shape_copy. now left.
  - destruct (Z.eq_dec timeout 0) as [Hzero|Hwait].
    + rewrite locked_read_no_wait by (now right). apply shape_copy. now right.
    + destruct (locked_read_wait fuel size timeout c Hs Hwait)
        as (k & Hk & Hafter).
      rewrite Hk. now apply shape_wait.
Qed.

Lemma wait_for_is_cond_wait (timeout : Z) :
  is_cond_wait (wait_for timeout) = true.
Proof. unfold wait_for. now destruct (0 <? timeout). Qed.

(** C3 (as amended): for a non-null buffer, a non-zero size and any timeout,
    [read_body] returns the end-of-stream status, stores nothing, leaves the
    state as it is and does not wait, whenever the content length is
    positive and the read offset has reached it; neither the timeout nor the
    retained bytes matter. *)
Theorem read_body_eof (fuel : nat) (size timeout : Z) (c : BeQuicSpdyClient) :
  size <> 0 ->
  0 < content_length_ c ->
  content_length_ c <= read_offset_ c ->
  read_body fuel NonNull size timeout c =
  Done (Some (mkRead (Status kBeQuicErrorCode_Eof) [])) c.
Proof.
  intros Hsize Hlen Hoff. unfold read_body. simpl.
  destruct (Z.eqb_spec size 0); [contradiction|].
  destruct (Z.ltb_spec 0 (content_length_ c)); [|lia].
  destruct (Z.leb_spec (content_length_ c) (read_offset_ c)); [|lia].
  reflexivity.
Qed.

Lemma read_body_eof_witness :
  4096 <> 0 /\
  0 < content_length_ drained_client /\
  content_length_ drained_client <= read_offset_ drained_client /\
  read_body 1 NonNull 4096 (-1) drained_client =
  Done (Some (mkRead (Status kBeQuicErrorCode_Eof) [])) drained_client.
Proof.
  split; [lia|]. split; [simpl; lia|]. split; [simpl; lia|].
  apply (read_body_eof 1 4096 (-1) drained_client); simpl; lia.
Defined.

(** C3 as stated fails in two places: a null buffer is rejected as an invalid
    argument before the end of stream is looked at, and a declared length of
    0 is not taken for a known length by the end-of-stream test. *)
Lemma read_body_eof_counterexample :
  (content_length_ drained_client <> -1 /\
   content_length_ drained_client <= read_offset_ drained_client /\
   read_body 1 NULL 4096 0 drained_client =
   Done (Some (mkRead (Status kBeQuicErrorCode_Invalid_Param) [])) drained_client)
  /\
  (content_length_ empty_stream_client <> -1 /\
   content_length_ empty_stream_client <= read_offset_ empty_stream_client /\
   alone 2 (read_body 1 NonNull 4096 0 empty_stream_client) =
   Some (Some (mkRead (Value 0) []), empty_stream_client)).
Proof.
  repeat split; simpl; try lia; try discriminate.
Qed.

(** The copy on a state whose window is in range, for a positive [int]
    size: [min size retained] bytes leave the head of the window, the offset
    advances by as much, and that count is returned. *)
Lemma copy_out_exact (size : Z) (c : BeQuicSpdyClient) :
  0 < size <= INT_MAX ->
  window_in_range c ->
  copy_out size c =
  (mkRead (Value (Z.min size (buff_size c)))
          (firstn (Z.to_nat (Z.min size (buff_size c))) (response_buff_ c)),
   set_read_offset (read_offset_ c + Z.min size (buff_size c))
     (set_response_buff
        (skipn (Z.to_nat (Z.min size (buff_size c))) (response_buff_ c)) c)).
Proof.
  intros Hsize (Hoff & Hend).
  pose proof (buff_size_nonneg c) as Hretained.
  unfold copy_out, INT_MAX, INT64_MAX in *.
  rewrite to_size_t_id by lia.
  set (n := Z.min size (buff_size c)).
  assert (0 <= n <= size) as Hn by (unfold n; lia).
  assert (n <= buff_size c) as Hn' by (unfold n; lia).
  destruct (Z.eqb_spec n 0) as [Hzero|Hpos].
  - rewrite Hzero, Z.add_0_r. simpl. now rewrite set_same.
  - rewrite to_int_id by lia. rewrite to_int64_id by lia. reflexivity.
Qed.

(** X15: a read with a non-null buffer and a positive [int] size that is
    not at the end of the stream changes nothing before it yields and always
    finishes by the copy step applied to the state it was last resumed in
    (after the lock is taken and after the wait, if any); and on a state
    [c'] whose window is in range the copy step stores exactly the first
    [min size retained] bytes of the window, removes them from the window,
    advances [read_offset_] by that number and returns it, which is 0 when
    nothing is retained. *)
Theorem read_body_copies (fuel : nat) (size timeout : Z)
        (c c' : BeQuicSpdyClient) :
  0 < size <= INT_MAX ->
  ~ (0 < content_length_ c /\ content_length_ c <= read_offset_ c) ->
  window_in_range c' ->
  finishes_with
    (fun s => (Some (fst (copy_out size s)), snd (copy_out size s)))
    c (read_body (S fuel) NonNull size timeout c)
  /\
  (let n := Z.min size (buff_size c') in
   fst (copy_out size c') =
     mkRead (Value n) (firstn (Z.to_nat n) (response_buff_ c')) /\
   Z.of_nat (length (read_data (fst (copy_out size c')))) = n /\
   response_buff_ (snd (copy_out size c')) =
     skipn (Z.to_nat n) (response_buff_ c') /\
   read_offset_ (snd (copy_out size c')) = read_offset_ c' + n /\
   snd (copy_out size c') =
     set_read_offset (read_offset_ c' + n)
       (set_response_buff (skipn (Z.to_nat n) (response_buff_ c')) c')).
Proof.
  intros Hsize Hnot_eof Hrange. split.
  - rewrite read_body_enters.
    + apply finishes_later. intros c1.
      destruct (locked_read_cases fuel size timeout c1) as [_ | k _ _ Hafter].
      * apply (finishes_now
                 (fun s => (Some (fst (copy_out size s)), snd (copy_out size s)))).
      * apply finishes_later. intros c2. rewrite Hafter.
        apply (finishes_now
                 (fun s => (Some (fst (copy_out size s)), snd (copy_out size s)))).
    + simpl. apply Z.eqb_neq. lia.
    + apply andb_false_iff.
      destruct (Z.ltb_spec 0 (content_length_ c)); [|now left].
      destruct (Z.leb_spec (content_length_ c) (read_offset_ c)); [|now right].
      exfalso. apply Hnot_eof. lia.
  - cbv zeta. rewrite (copy_out_exact size c' Hsize Hrange). simpl.
    repeat split.
    rewrite length_firstn.
    pose proof (buff_size_nonneg c'). unfold buff_size in *. lia.
Qed.

Lemma read_body_copies_witness :
  0 < 4 <= INT_MAX /\
  ~ (0 < content_length_ sample_client /\
     content_length_ sample_client <= read_offset_ sample_client) /\
  window_in_range sample_client /\
  finishes_with
    (fun s => (Some (fst (copy_out 4 s)), snd (copy_out 4 s)))
    sample_client (read_body 1 NonNull 4 0 sample_client)
  /\
  (let n := Z.min 4 (buff_size sample_client) in
   fst (copy_out 4 sample_client) =
     mkRead (Value n) (firstn (Z.to_nat n) (response_buff_ sample_client)) /\
   Z.of_nat (length (read_data (fst (copy_out 4 sample_client)))) = n /\
   response_buff_ (snd (copy_out 4 sample_client)) =
     skipn (Z.to_nat n) (response_buff_ sample_client) /\
   read_offset_ (snd (copy_out 4 sample_client)) =
     read_offset_ sample_client + n /\
   snd (copy_out 4 sample_client) =
     set_read_offset (read_offset_ sample_client + n)
       (set_response_buff
          (skipn (Z.to_nat n) (response_buff_ sample_client)) sample_client)).
Proof.
  assert (0 < 4 <= INT_MAX) as H1 by (unfold INT_MAX; lia).
  assert (~ (0 < content_length_ sample_client /\
             content_length_ sample_client <= read_offset_ sample_client))
    as H2 by (simpl; lia).
  assert (window_in_range sample_client) as H3
      by (unfold window_in_range, INT64_MAX; simpl; lia).
  split; [exact H1|]. split; [exact H2|]. split; [exact H3|].
  exact (read_body_copies 0 4 0 sample_client sample_client H1 H2 H3).
Defined.

(** A negative [int] size passes the test of line 93; converted to [size_t]
    it exceeds every window, so the copy step hands over the whole window,
    however small the caller's [size] is. *)
Lemma copy_out_negative_size (size : Z) (c : BeQuicSpdyClient) :
  - 2 ^ 31 <= size < 0 ->
  window_in_range c ->
  read_data (fst (copy_out size c)) = response_buff_ c /\
  response_buff_ (snd (copy_out size c)) = [].
Proof.
  intros Hsize (Hro & Hend). unfold copy_out, to_size_t, INT64_MAX in *.
  pose proof (buff_size_nonneg c) as Hretained.
  replace (size mod 2 ^ 64) with (size + 2 ^ 64)
    by (apply Z.mod_unique with (q := -1); lia).
  rewrite Z.min_r by lia.
  destruct (Z.eqb_spec (buff_size c) 0) as [Hzero|Hpos]; simpl.
  - unfold buff_size in Hzero.
    destruct (response_buff_ c); [now split|simpl in Hzero; lia].
  - unfold buff_size. rewrite Nat2Z.id, firstn_all, skipn_all. now split.
Qed.

(** C7 at a state a client reaches (offset 4, two bytes retained): a read
    with a non-null buffer and [size = -1] is not rejected, and it stores
    both retained bytes through [buf], returns 2 and advances the offset by
    2, whereas [min size retained] is -1: more than [size] bytes are
    copied. *)
Theorem read_body_negative_size_at_reached_client :
  Z.min (-1) (buff_size reached_client) = -1 /\
  alone 1 (read_body 1 NonNull (-1) 0 reached_client) =
  Some (Some (mkRead (Value 2) [Byte.x2f; Byte.x33]),
        mkClient 5 true 1000 7 6 [] (Some [])).
Proof. split; reflexivity. Qed.

Example read_four_of_six :
  alone 1 (read_body 1 NonNull 4 0 sample_client) =
  Some (Some (mkRead (Value 4) [Byte.x48; Byte.x54; Byte.x54; Byte.x50]),
        mkClient 5 true 1000 0 104 [Byte.x2f; Byte.x33] (Some [])).
Proof. reflexivity. Qed.

Example read_nothing_retained :
  alone 2 (read_body 1 NonNull 4 0 (mkClient 5 true 1000 0 100 [] None)) =
  Some (Some (mkRead (Value 0) []), mkClient 5 true 1000 0 100 [] None).
Proof. reflexivity. Qed.

(** [size] is a byte count.  A negative [int] converted to [size_t] exceeds
    every window, so such a call copies the whole window. *)
Example read_negative_size :
  alone 1 (read_body 1 NonNull (-1) 0 sample_client) =
  Some (Some (mkRead (Value 6) sample_chunk),
        mkClient 5 true 1000 0 106 [] (Some [])).
Proof. reflexivity. Qed.

(** C9: whatever the arguments, [read_body] waits on the condition at most
    once; with a zero timeout it does not wait at all; and when it does wait
    the timeout is not zero, the wait is the timed one for a positive timeout
    and the indefinite one for a negative timeout, and from every state the
    thread wakes up in - sufficient or not - it goes straight to the copy
    step and returns, without testing sufficiency again. *)
Theorem read_body_waits_once (fuel : nat) (buf : pointer) (size timeout : Z)
        (c : BeQuicSpdyClient) :
  cond_waits_at_most 1 (read_body (S fuel) buf size timeout c) /\
  (timeout = 0 ->
   cond_waits_at_most 0 (read_body (S fuel) buf size timeout c)) /\
  first_wait
    (fun y k =>
       timeout <> 0 /\
       y = (if 0 <? timeout then WaitUntil timeout else WaitForever) /\
       forall c', k c' = Done (Some (fst (copy_out size c')))
                              (snd (copy_out size c')))
    (read_body (S fuel) buf size timeout c).
Proof.
  unfold read_body.
  destruct (is_null buf || (size =? 0)); [repeat split; auto with bequic|].
  destruct ((0 <? content_length_ c) && (content_length_ c <=? read_offset_ c));
    [repeat split; auto with bequic|].
  change ((yield_at AcquireLock;;; locked_read (S fuel) size timeout) c)
    with (Yield AcquireLock c (fun c' => locked_read (S fuel) size timeout c')).
  split; [|split].
  - apply waits_lock. intros c1.
    destruct (locked_read_cases fuel size timeout c1) as [_ | k _ _ Hafter].
    + auto with bequic.
    + apply waits_cond; [apply wait_for_is_cond_wait|].
      intros c2. rewrite Hafter. auto with bequic.
  - intros Hzero. apply waits_lock. intros c1.
    destruct (locked_read_cases fuel size timeout c1) as [_ | k _ Hwait _].
    + auto with bequic.
    + contradiction.
  - apply first_wait_lock. intros c1.
    destruct (locked_read_cases fuel size timeout c1) as [_ | k _ Hwait Hafter].
    + auto with bequic.
    + apply first_wait_cond; [apply wait_for_is_cond_wait|].
      split; [exact Hwait|]. split; [reflexivity|]. exact Hafter.
Qed.

(** ** Stream order *)

Lemma copy_out_splits (size : Z) (c : BeQuicSpdyClient) :
  response_buff_ c =
  read_data (fst (copy_out size c)) ++ response_buff_ (snd (copy_out size c)).
Proof.
  unfold copy_out.
  destruct (Z.min (to_size_t size) (buff_size c) =? 0); simpl.
  - reflexivity.
  - symmetry. apply firstn_skipn.
Qed.

Lemma locked_read_in_order (fuel : nat) (size timeout : Z)
      (c : BeQuicSpdyClient) :
  in_order (response_buff_ c) (locked_read (S fuel) size timeout c).
Proof.
  destruct (locked_read_cases fuel size timeout c) as [_ | k _ _ Hafter].
  - apply in_order_done, copy_out_splits.
  - apply in_order_yield; [reflexivity|].
    intros c'. rewrite Hafter. apply in_order_done, copy_out_splits.
Qed.

Lemma read_body_in_order (fuel : nat) (buf : pointer) (size timeout : Z)
      (c : BeQuicSpdyClient) :
  in_order (response_buff_ c) (read_body (S fuel) buf size timeout c).
Proof.
  unfold read_body.
  destruct (is_null buf || (size =? 0)); [now apply in_order_done|].
  destruct ((0 <? content_length_ c) && (content_length_ c <=? read_offset_ c));
    [now apply in_order_done|].
  change ((yield_at AcquireLock;;; locked_read (S fuel) size timeout) c)
    with (Yield AcquireLock c (fun c' => locked_read (S fuel) size timeout c')).
  apply in_order_yield; [reflexivity|].
  intros c'. apply locked_read_in_order.
Qed.

(** A delivered chunk goes to the tail of the window, whole. *)
Lemma on_data_appends (now : Z) (st : QuicSpdyClientStream)
      (chunk : list byte) (c : BeQuicSpdyClient) :
  response_buff_
    (fst (on_data now (Some st) (Some chunk) (Z.of_nat (length chunk)) c)) =
  response_buff_ c ++ chunk.
Proof.
  unfold on_data.
  set (c1 := if current_stream_id_ c =? 0
             then set_current_stream_id (id st) c else c).
  set (c2 := if got_first_data_ c1 then c1
             else set_first_data (check_content_length st) now c1).
  assert (response_buff_ c2 = response_buff_ c) as Hsame.
  { unfold c2, c1.
    destruct (current_stream_id_ c =? 0); simpl;
      match goal with |- context [if ?b then _ else _] => destruct b end;
      reflexivity. }
  destruct (Z.ltb_spec 0 (Z.of_nat (length chunk))) as [Hpos|Hempty]; simpl.
  - rewrite Nat2Z.id, firstn_all. now rewrite Hsame.
  - destruct chunk; [|simpl in Hempty; lia].
    now rewrite app_nil_r.
Qed.

Lemma settle_in_order (w got : list byte)
      (b : blocking (option read_result)) :
  in_order w b ->
  pending_in_order (settle b got) /\
  received (settle b got) ++ response_buff_ (client (settle b got)) = got ++ w.
Proof.
  intros H. destruct H as [w r c Hw | w y c k Hw Hk]; simpl.
  - split; [exact I|]. now rewrite Hw, app_assoc.
  - split; [exact Hk|]. now rewrite Hw.
Qed.

(** One action keeps the bytes in order: what the consumer has received,
    followed by what is retained, grows by exactly the chunk delivered. *)
Lemma step_in_order (fuel : nat) (s : system) (a : action) :
  pending_in_order s ->
  pending_in_order (step (S fuel) s a) /\
  received (step (S fuel) s a) ++ response_buff_ (client (step (S fuel) s a)) =
  (received s ++ response_buff_ (client s)) ++ chunk_of a.
Proof.
  intros Hp. unfold step.
  destruct a as [now st chunk | buf size timeout | ]; simpl chunk_of.
  - unfold pending_in_order in *.
    destruct (pending s) eqn:Hpend; cbn [client received pending];
      (split; [exact Hp | rewrite on_data_appends; now rewrite app_assoc]).
  - destruct (pending s) eqn:Hpend.
    + rewrite app_nil_r. split; [exact Hp | reflexivity].
    + rewrite app_nil_r.
      apply settle_in_order, read_body_in_order.
  - unfold pending_in_order in Hp.
    destruct (pending s) as [k|] eqn:Hpend.
    + rewrite app_nil_r. apply settle_in_order, Hp.
    + rewrite app_nil_r. split; [|reflexivity].
      unfold pending_in_order. now rewrite Hpend.
Qed.

Lemma delivered_chunks (a : action) (sched : list action) :
  delivered (a :: sched) = chunk_of a ++ delivered sched.
Proof. destruct a; reflexivity. Qed.

Lemma run_in_order (fuel : nat) (sched : list action) :
  forall s : system,
    pending_in_order s ->
    pending_in_order (run (S fuel) sched s) /\
    received (run (S fuel) sched s)
      ++ response_buff_ (client (run (S fuel) sched s)) =
    (received s ++ response_buff_ (client s)) ++ delivered sched.
Proof.
  induction sched as [|a sched IH]; intros s Hp.
  - simpl. now rewrite app_nil_r.
  - destruct (step_in_order fuel s a Hp) as (Hp' & Hstep).
    destruct (IH _ Hp') as (Hp'' & Hrun).
    unfold run in *. simpl fold_left. split; [exact Hp''|].
    rewrite Hrun, Hstep, delivered_chunks. now rewrite app_assoc.
Qed.

(** C1: start with an empty window and let deliveries and reads (no seek)
    interleave in any way, deliveries falling also while a read waits.  The
    bytes the reads have returned, in the order returned, followed by the
    bytes still retained, are the delivered chunks A1 .. An concatenated; so
    what was returned is that concatenation cut at the number of bytes
    returned - nothing lost, duplicated or reordered. *)
Theorem reads_in_stream_order (fuel : nat) (sched : list action)
        (c : BeQuicSpdyClient) :
  response_buff_ c = [] ->
  received (run (S fuel) sched (mkSystem c None []))
    ++ response_buff_ (client (run (S fuel) sched (mkSystem c None []))) =
  delivered sched
  /\
  received (run (S fuel) sched (mkSystem c None [])) =
  firstn (length (received (run (S fuel) sched (mkSystem c None []))))
         (delivered sched).
Proof.
  intros Hempty.
  destruct (run_in_order fuel sched (mkSystem c None []) I) as (_ & Hrun).
  simpl in Hrun. rewrite Hempty in Hrun. simpl in Hrun.
  split; [exact Hrun|].
  rewrite <- Hrun.
  rewrite firstn_app, firstn_all, Nat.sub_diag. simpl.
  now rewrite app_nil_r.
Qed.

Lemma reads_in_stream_order_witness :
  response_buff_ (new_client None) = [] /\
  (received (run 1 sample_schedule (mkSystem (new_client None) None []))
     ++ response_buff_
          (client (run 1 sample_schedule (mkSystem (new_client None) None []))) =
   delivered sample_schedule
   /\
   received (run 1 sample_schedule (mkSystem (new_client None) None [])) =
   firstn
     (length (received (run 1 sample_schedule
                            (mkSystem (new_client None) None []))))
     (delivered sample_schedule)).
Proof.
  split; [reflexivity|].
  apply (reads_in_stream_order 0 sample_schedule (new_client None)).
  reflexivity.
Defined.

Example sample_schedule_received :
  received (run 1 sample_schedule (mkSystem (new_client None) None [])) =
  [Byte.x61; Byte.x62; Byte.x63; Byte.x64; Byte.x65; Byte.x66; Byte.x67].
Proof. reflexivity. Qed.

(** ** Seeking *)

Example reached_client_is :
  reached_client = mkClient 5 true 1000 7 4 [Byte.x2f; Byte.x33] (Some []).
Proof. reflexivity. Qed.

(** C10: with the content length unknown (-1), [seek_in_buffer] returns the
    not-supported status for every [whence] - the size query, the no-op
    requests, absolute, relative and end-relative seeks - and every offset,
    stores nothing through [target_off] and leaves the state as it is: the
    test of the sentinel comes before every other branch. *)
Theorem seek_unknown_length_not_supported (off whence : Z)
        (target_off : pointer) (c : BeQuicSpdyClient) :
  content_length_ c = -1 ->
  seek_in_buffer off whence target_off c =
  (mkSeek (Status kBeQuicErrorCode_Not_Supported) None, c).
Proof.
  intros Hunknown. unfold seek_in_buffer. now rewrite Hunknown.
Qed.

Lemma seek_unknown_length_not_supported_witness :
  content_length_ unknown_length_client = -1 /\
  seek_in_buffer 0 AVSEEK_SIZE NonNull unknown_length_client =
  (mkSeek (Status kBeQuicErrorCode_Not_Supported) None, unknown_length_client).
Proof.
  split; [reflexivity|].
  apply (seek_unknown_length_not_supported 0 AVSEEK_SIZE NonNull
                                           unknown_length_client).
  reflexivity.
Defined.

(** With the content length unknown, a seek relative to the end takes the
    first exit like every other seek: not-supported, nothing changed.  The
    invalid-state branch of lines 149-152 is never reached. *)
Lemma seek_end_unknown_length (off : Z) (target_off : pointer)
      (c : BeQuicSpdyClient) :
  content_length_ c = -1 ->
  seek_in_buffer off SEEK_END target_off c =
  (mkSeek (Status kBeQuicErrorCode_Not_Supported) None, c).
Proof.
  intros Hunknown. unfold seek_in_buffer.
  destruct (Z.eqb_spec (content_length_ c) (-1)); [reflexivity|contradiction].
Qed.

Example reached_unknown_client_is :
  reached_unknown_client =
  mkClient 5 true (-1) 7 4 [Byte.x2f; Byte.x33] (Some []).
Proof. reflexivity. Qed.

(** C5 at a state a client reaches (first chunk of a stream that declares no
    length, offset 4): the content length is unknown, and a seek relative to
    the end returns the not-supported status, not the invalid-state status
    that lines 149-152 assign to this very case. *)
Theorem seek_end_at_reached_unknown_client :
  content_length_ reached_unknown_client = -1 /\
  seek_in_buffer (-1) SEEK_END NULL reached_unknown_client =
  (mkSeek (Status kBeQuicErrorCode_Not_Supported) None,
   reached_unknown_client) /\
  seek_ret (fst (seek_in_buffer (-1) SEEK_END NULL reached_unknown_client)) <>
  Status kBeQuicErrorCode_Invalid_State.
Proof.
  split; [reflexivity|]. split; [reflexivity|]. simpl. discriminate.
Qed.

(** The part of C6 the code keeps: with the length known, the two no-op
    requests store nothing and leave the state as it is, and the absolute one
    returns the current offset. *)
Lemma seek_noop_unchanged (target_off : pointer) (c : BeQuicSpdyClient) :
  content_length_ c <> -1 ->
  snd (seek_in_buffer 0 SEEK_CUR target_off c) = c /\
  seek_in_buffer (read_offset_ c) SEEK_SET target_off c =
  (mkSeek (Value (read_offset_ c)) None, c).
Proof.
  intros Hknown. unfold seek_in_buffer, AVSEEK_SIZE, SEEK_CUR, SEEK_SET.
  destruct (Z.eqb_spec (content_length_ c) (-1)); [contradiction|].
  simpl. rewrite Z.eqb_refl. simpl. split; reflexivity.
Qed.

(** With the length known, [seek (0, SEEK_CUR)] returns its argument, 0,
    whatever the current offset is. *)
Lemma seek_cur_zero_returns_zero (target_off : pointer)
      (c : BeQuicSpdyClient) :
  content_length_ c <> -1 ->
  seek_in_buffer 0 SEEK_CUR target_off c = (mkSeek (Value 0) None, c).
Proof.
  intros Hknown. unfold seek_in_buffer, AVSEEK_SIZE, SEEK_CUR.
  destruct (Z.eqb_spec (content_length_ c) (-1)); [contradiction|].
  reflexivity.
Qed.

(** C6 at a state a client reaches (length 1000 declared, offset 4): the
    relative no-op seek returns 0, not the current offset 4; the absolute one
    returns 4; neither changes the state. *)
Theorem seek_noop_at_reached_client :
  content_length_ reached_client = 1000 /\
  read_offset_ reached_client = 4 /\
  seek_in_buffer 0 SEEK_CUR NULL reached_client =
  (mkSeek (Value 0) None, reached_client) /\
  seek_in_buffer 4 SEEK_SET NULL reached_client =
  (mkSeek (Value 4) None, reached_client).
Proof. repeat split. Qed.

(** The two tests of lines 163-183 on a resolved offset that is an
    [int64_t], on a state whose window is in range. *)
Lemma seek_resolved_hit (T : Z) (target_off : pointer)
      (c : BeQuicSpdyClient) :
  window_in_range c ->
  read_offset_ c < T < read_offset_ c + buff_size c ->
  seek_resolved T target_off c =
  (mkSeek (Value T) None,
   set_read_offset T
     (set_response_buff
        (skipn (Z.to_nat (T - read_offset_ c)) (response_buff_ c)) c)).
Proof.
  intros (Hoff & Hend) Hin. unfold seek_resolved, consume, INT64_MAX in *.
  pose proof (buff_size_nonneg c).
  destruct (Z.ltb_spec T 0); [lia|].
  rewrite !to_int64_id by lia.
  destruct (Z.ltb_spec 0 (T - read_offset_ c)); [|lia].
  destruct (Z.ltb_spec (T - read_offset_ c) (buff_size c)); [|lia].
  reflexivity.
Qed.

Lemma seek_resolved_miss (T : Z) (target_off : pointer)
      (c : BeQuicSpdyClient) :
  window_in_range c ->
  0 <= T < 2 ^ 63 ->
  ~ (read_offset_ c < T < read_offset_ c + buff_size c) ->
  seek_resolved T target_off c =
  (mkSeek (Status kBeQuicErrorCode_Buffer_Not_Hit)
          (if is_null target_off then None else Some T), c).
Proof.
  intros (Hoff & Hend) HT Hout. unfold seek_resolved, INT64_MAX in *.
  pose proof (buff_size_nonneg c).
  destruct (Z.ltb_spec T 0); [lia|].
  rewrite !to_int64_id by lia.
  destruct (Z.ltb_spec 0 (T - read_offset_ c));
    destruct (Z.ltb_spec (T - read_offset_ c) (buff_size c));
    simpl; try reflexivity.
  exfalso. apply Hout. lia.
Qed.

Lemma to_int64_range (z : Z) : - 2 ^ 63 <= to_int64 z < 2 ^ 63.
Proof.
  unfold to_int64.
  pose proof (Z.mod_pos_bound (z + 2 ^ 63) (2 ^ 64)). lia.
Qed.

Lemma resolve_offset_range (off whence T : Z) (c : BeQuicSpdyClient) :
  - 2 ^ 63 <= off < 2 ^ 63 ->
  resolve_offset off whence c = Some T ->
  - 2 ^ 63 <= T < 2 ^ 63.
Proof.
  intros Hoff. unfold resolve_offset.
  destruct (whence =? SEEK_CUR);
    [intros [= <-]; apply to_int64_range|].
  destruct (whence =? SEEK_END);
    [intros [= <-]; apply to_int64_range|].
  destruct (negb (whence =? SEEK_SET)); [discriminate|].
  now intros [= <-].
Qed.

(** Past its first branches, a seek with known length is the range and
    buffer-hit tests on the resolved offset. *)
Lemma seek_in_buffer_resolves (off whence T : Z) (target_off : pointer)
      (c : BeQuicSpdyClient) :
  content_length_ c <> -1 ->
  resolve_offset off whence c = Some T ->
  ~ (whence = SEEK_CUR /\ off = 0) ->
  ~ (whence = SEEK_SET /\ off = read_offset_ c) ->
  seek_in_buffer off whence target_off c = seek_resolved T target_off c.
Proof.
  intros Hknown Hres Hcur Hset. unfold seek_in_buffer.
  destruct (Z.eqb_spec (content_length_ c) (-1)); [contradiction|].
  destruct (Z.eqb_spec whence AVSEEK_SIZE) as [Hsize|_].
  { subst whence. discriminate Hres. }
  replace ((whence =? SEEK_CUR) && (off =? 0)
           || (whence =? SEEK_SET) && (off =? read_offset_ c))
    with false.
  - simpl. now rewrite Hres.
  - symmetry. apply orb_false_iff. split; apply andb_false_iff.
    + destruct (Z.eqb_spec whence SEEK_CUR); [|now left].
      destruct (Z.eqb_spec off 0); [|now right].
      exfalso. now apply Hcur.
    + destruct (Z.eqb_spec whence SEEK_SET); [|now left].
      destruct (Z.eqb_spec off (read_offset_ c)); [|now right].
      exfalso. now apply Hset.
Qed.

(** C4 (as amended): with the content length known, take a request that is
    not one of the two no-op requests and whose [whence] is one of the three
    positioning modes, and let [T] be the offset it resolves to, [T >= 0].
    If [read_offset_ < T < read_offset_ + retained size], the seek drops
    [T - read_offset_] bytes from the head of the window, sets
    [read_offset_] to [T] and returns [T].  For every other such [T]
    (backward, or at or past the end of the window) it returns the
    buffer-miss status, stores [T] through [target_off] when that is not
    null, and changes nothing. *)
Theorem seek_hit_or_miss (off whence T : Z) (target_off : pointer)
        (c : BeQuicSpdyClient) :
  content_length_ c <> -1 ->
  window_in_range c ->
  - 2 ^ 63 <= off < 2 ^ 63 ->
  resolve_offset off whence c = Some T ->
  ~ (whence = SEEK_CUR /\ off = 0) ->
  ~ (whence = SEEK_SET /\ off = read_offset_ c) ->
  0 <= T ->
  (read_offset_ c < T < read_offset_ c + buff_size c ->
   seek_in_buffer off whence target_off c =
   (mkSeek (Value T) None,
    set_read_offset T
      (set_response_buff
         (skipn (Z.to_nat (T - read_offset_ c)) (response_buff_ c)) c)))
  /\
  (~ (read_offset_ c < T < read_offset_ c + buff_size c) ->
   seek_in_buffer off whence target_off c =
   (mkSeek (Status kBeQuicErrorCode_Buffer_Not_Hit)
           (if is_null target_off then None else Some T), c)).
Proof.
  intros Hknown Hrange Hoff Hres Hcur Hset HT.
  rewrite (seek_in_buffer_resolves off whence T target_off c
             Hknown Hres Hcur Hset).
  pose proof (resolve_offset_range off whence T c Hoff Hres) as HT'.
  split.
  - intros Hin. now apply seek_resolved_hit.
  - intros Hout. apply seek_resolved_miss; [assumption|lia|assumption].
Qed.

Lemma seek_hit_or_miss_witness :
  content_length_ window_100_500 <> -1 /\
  window_in_range window_100_500 /\
  - 2 ^ 63 <= 300 < 2 ^ 63 /\
  resolve_offset 300 SEEK_SET window_100_500 = Some 300 /\
  ~ (SEEK_SET = SEEK_CUR /\ 300 = 0) /\
  ~ (SEEK_SET = SEEK_SET /\ 300 = read_offset_ window_100_500) /\
  0 <= 300 /\
  ((read_offset_ window_100_500 < 300
    < read_offset_ window_100_500 + buff_size window_100_500 ->
    seek_in_buffer 300 SEEK_SET NonNull window_100_500 =
    (mkSeek (Value 300) None,
     set_read_offset 300
       (set_response_buff
          (skipn (Z.to_nat (300 - read_offset_ window_100_500))
                 (response_buff_ window_100_500)) window_100_500)))
   /\
   (~ (read_offset_ window_100_500 < 300
       < read_offset_ window_100_500 + buff_size window_100_500) ->
    seek_in_buffer 300 SEEK_SET NonNull window_100_500 =
    (mkSeek (Status kBeQuicErrorCode_Buffer_Not_Hit)
            (if is_null NonNull then None else Some 300), window_100_500))).
Proof.
  assert (content_length_ window_100_500 <> -1) as H1 by (simpl; lia).
  assert (window_in_range window_100_500) as H2
      by (unfold window_in_range, INT64_MAX; simpl; lia).
  assert (- 2 ^ 63 <= 300 < 2 ^ 63) as H3 by lia.
  assert (resolve_offset 300 SEEK_SET window_100_500 = Some 300) as H4
      by reflexivity.
  assert (~ (SEEK_SET = SEEK_CUR /\ 300 = 0)) as H5 by (intros [_ H]; lia).
  assert (~ (SEEK_SET = SEEK_SET /\ 300 = read_offset_ window_100_500)) as H6
      by (simpl; intros [_ H]; lia).
  assert (0 <= 300) as H7 by lia.
  split; [exact H1|]. split; [exact H2|]. split; [exact H3|].
  split; [exact H4|]. split; [exact H5|]. split; [exact H6|].
  split; [exact H7|].
  exact (seek_hit_or_miss 300 SEEK_SET 300 NonNull window_100_500
                          H1 H2 H3 H4 H5 H6 H7).
Defined.

(** The seek examples of the specification on the window [[100, 500)]. *)
Example seek_300_hits :
  seek_in_buffer 300 SEEK_SET NonNull window_100_500 =
  (mkSeek (Value 300) None,
   mkClient 5 true 1000 0 300 (repeat Byte.x2a 200) (Some [])).
Proof. reflexivity. Qed.

Example seek_600_misses :
  seek_in_buffer 600 SEEK_SET NonNull window_100_500 =
  (mkSeek (Status kBeQuicErrorCode_Buffer_Not_Hit) (Some 600), window_100_500).
Proof. reflexivity. Qed.

Example seek_50_misses :
  seek_in_buffer 50 SEEK_SET NULL window_100_500 =
  (mkSeek (Status kBeQuicErrorCode_Buffer_Not_Hit) None, window_100_500).
Proof. reflexivity. Qed.

(** C4 as stated fails on the no-op requests.  At offset 100 with nothing
    retained, the target 100 is not negative and equals the end of the
    window, yet an absolute seek to it returns 100 and stores nothing; the
    same holds with the window [[100, 500)] retained, where the target 100
    is not strictly inside the window either. *)
Lemma seek_hit_or_miss_counterexample :
  (content_length_ caught_up_client <> -1 /\
   resolve_offset 100 SEEK_SET caught_up_client = Some 100 /\
   100 = read_offset_ caught_up_client + buff_size caught_up_client /\
   seek_in_buffer 100 SEEK_SET NonNull caught_up_client =
   (mkSeek (Value 100) None, caught_up_client) /\
   seek_ret (fst (seek_in_buffer 100 SEEK_SET NonNull caught_up_client)) <>
   Status kBeQuicErrorCode_Buffer_Not_Hit)
  /\
  (content_length_ window_100_500 <> -1 /\
   resolve_offset 100 SEEK_SET window_100_500 = Some 100 /\
   ~ (read_offset_ window_100_500 < 100) /\
   seek_in_buffer 100 SEEK_SET NonNull window_100_500 =
   (mkSeek (Value 100) None, window_100_500) /\
   seek_ret (fst (seek_in_buffer 100 SEEK_SET NonNull window_100_500)) <>
   Status kBeQuicErrorCode_Buffer_Not_Hit).
Proof.
  split.
  - split; [simpl; lia|]. split; [reflexivity|]. split; [reflexivity|].
    split; [reflexivity|]. simpl. discriminate.
  - split; [simpl; lia|]. split; [reflexivity|]. split; [simpl; lia|].
    split; [reflexivity|]. simpl. discriminate.
Qed.

(** ** Closing the stream *)

Lemma consume_all (b : list byte) : consume (Z.of_nat (length b)) b = [].
Proof.
  unfold consume. rewrite Nat2Z.id. apply skipn_all.
Qed.

Lemma close_bound_stream (c : BeQuicSpdyClient) (s : QuicSession) :
  current_stream_id_ c <> 0 ->
  session c = Some s ->
  close_current_stream c =
  (true,
   set_response_buff []
     (set_read_offset 0
        (set_current_stream_id 0
           (set_session
              (Some (s ++ [SendRstStream (current_stream_id_ c);
                           CloseStream (current_stream_id_ c)])) c)))).
Proof.
  intros Hbound Hsession. unfold close_current_stream.
  destruct (Z.eqb_spec (current_stream_id_ c) 0); [contradiction|].
  rewrite Hsession. unfold buff_size. now rewrite consume_all.
Qed.

(** C8: [close_current_stream] returns false and leaves the state as it is
    when no stream is bound or there is no session.  Otherwise it returns
    true, asks the session to reset and close the bound stream, sets
    [current_stream_id_] to 0 and [read_offset_] to 0, and empties the
    window; so a second call right after it returns false and changes
    nothing. *)
Theorem close_current_stream_closes (c : BeQuicSpdyClient) :
  (current_stream_id_ c = 0 \/ session c = None ->
   close_current_stream c = (false, c))
  /\
  (forall s : QuicSession,
     current_stream_id_ c <> 0 ->
     session c = Some s ->
     fst (close_current_stream c) = true /\
     current_stream_id_ (snd (close_current_stream c)) = 0 /\
     read_offset_ (snd (close_current_stream c)) = 0 /\
     response_buff_ (snd (close_current_stream c)) = [] /\
     buff_size (snd (close_current_stream c)) = 0 /\
     session (snd (close_current_stream c)) =
       Some (s ++ [SendRstStream (current_stream_id_ c);
                   CloseStream (current_stream_id_ c)]) /\
     close_current_stream (snd (close_current_stream c)) =
       (false, snd (close_current_stream c))).
Proof.
  split.
  - intros [Hunbound | Hnosession]; unfold close_current_stream.
    + now rewrite Hunbound.
    + rewrite Hnosession. now destruct (current_stream_id_ c =? 0).
  - intros s Hbound Hsession.
    rewrite (close_bound_stream c s Hbound Hsession).
    repeat split.
Qed.

Lemma close_current_stream_closes_witness :
  (current_stream_id_ (new_client None) = 0 \/ session (new_client None) = None)
  /\ current_stream_id_ sample_client <> 0
  /\ session sample_client = Some []
  /\ close_current_stream (new_client None) = (false, new_client None)
  /\ fst (close_current_stream sample_client) = true
  /\ buff_size (snd (close_current_stream sample_client)) = 0
  /\ close_current_stream (snd (close_current_stream sample_client)) =
     (false, snd (close_current_stream sample_client)).
Proof.
  assert (current_stream_id_ (new_client None) = 0 \/
          session (new_client None) = None) as H1 by (left; reflexivity).
  assert (current_stream_id_ sample_client <> 0) as H2 by (simpl; lia).
  assert (session sample_client = Some []) as H3 by reflexivity.
  split; [exact H1|]. split; [exact H2|]. split; [exact H3|].
  split.
  - exact (proj1 (close_current_stream_closes (new_client None)) H1).
  - pose proof (proj2 (close_current_stream_closes sample_client) [] H2 H3)
      as (Hret & _ & _ & _ & Hsize & _ & Hagain).
    split; [exact Hret|]. split; [exact Hsize|exact Hagain].
Defined.

Example close_twice :
  close_current_stream sample_client =
  (true, mkClient 0 true 1000 0 0 [] (Some [SendRstStream 5; CloseStream 5]))
  /\
  close_current_stream (snd (close_current_stream sample_client)) =
  (false, mkClient 0 true 1000 0 0 [] (Some [SendRstStream 5; CloseStream 5])).
Proof. split; reflexivity. Qed.

(** * Further properties of the code *)

(** ** The delivery callback *)

Lemma on_data_fields (now : Z) (stream : option QuicSpdyClientStream)
      (buf : option (list byte)) (size : Z) (c : BeQuicSpdyClient) :
  read_offset_ (fst (on_data now stream buf size c)) = read_offset_ c /\
  session (fst (on_data now stream buf size c)) = session c.
Proof.
  on_data_cases c stream buf; now split.
Qed.

Lemma on_data_window (now : Z) (st : QuicSpdyClientStream)
      (buf : option (list byte)) (size : Z) (c : BeQuicSpdyClient) :
  response_buff_ (fst (on_data now (Some st) buf size c)) =
  response_buff_ c ++
  match buf with
  | Some bytes => if 0 <? size then firstn (Z.to_nat size) bytes else []
  | None => []
  end.
Proof.
  destruct c; unfold on_data; simpl.
  destruct buf as [bytes|]; simpl;
    repeat match goal with
           | |- context [if ?b then _ else _] => destruct b eqn:?; simpl
           end;
    now rewrite ?app_nil_r.
Qed.

(** X1: [on_data] is the producer's side only: for every argument it leaves
    [read_offset_] and the session alone and never removes or changes a
    retained byte.  A null stream changes nothing at all; a null buffer or a
    size that is not positive writes nothing and notifies nobody; otherwise
    the first [size] bytes of the buffer go to the tail of the window. *)
Theorem on_data_only_appends (now : Z) (stream : option QuicSpdyClientStream)
        (buf : option (list byte)) (size : Z) (c : BeQuicSpdyClient) :
  read_offset_ (fst (on_data now stream buf size c)) = read_offset_ c /\
  session (fst (on_data now stream buf size c)) = session c /\
  (exists tail,
     response_buff_ (fst (on_data now stream buf size c)) =
     response_buff_ c ++ tail) /\
  (stream = None -> on_data now stream buf size c = (c, false)) /\
  (buf = None \/ size <= 0 ->
   response_buff_ (fst (on_data now stream buf size c)) = response_buff_ c /\
   snd (on_data now stream buf size c) = false) /\
  (forall st bytes,
     stream = Some st -> buf = Some bytes ->
     0 < size <= Z.of_nat (length bytes) ->
     response_buff_ (fst (on_data now stream buf size c)) =
     response_buff_ c ++ firstn (Z.to_nat size) bytes).
Proof.
  destruct (on_data_fields now stream buf size c) as (Hoff & Hsession).
  split; [exact Hoff|]. split; [exact Hsession|].
  split; [|split; [|split]].
  - destruct stream as [st|].
    + eexists. apply on_data_window.
    + exists []. simpl. now rewrite app_nil_r.
  - intros ->. reflexivity.
  - intros Hnothing. destruct stream as [st|]; [|now split].
    split.
    + rewrite on_data_window.
      destruct Hnothing as [-> | Hsize]; [now rewrite app_nil_r|].
      destruct buf; [|now rewrite app_nil_r].
      destruct (Z.ltb_spec 0 size); [lia|now rewrite app_nil_r].
    + unfold on_data.
      destruct Hnothing as [-> | Hsize]; [reflexivity|].
      destruct buf; [|reflexivity].
      destruct (Z.ltb_spec 0 size); [lia|reflexivity].
  - intros st bytes -> -> Hsize. rewrite on_data_window.
    destruct (Z.ltb_spec 0 size); [reflexivity|lia].
Qed.

Lemma on_data_keeps_latch (now : Z) (stream : option QuicSpdyClientStream)
      (buf : option (list byte)) (size : Z) (c : BeQuicSpdyClient) :
  got_first_data_ c = true ->
  got_first_data_ (fst (on_data now stream buf size c)) = true /\
  content_length_ (fst (on_data now stream buf size c)) = content_length_ c /\
  first_data_time_ (fst (on_data now stream buf size c)) = first_data_time_ c.
Proof.
  intros Hgot. destruct c; simpl in Hgot; subst.
  unfold on_data. destruct stream as [st|]; simpl; [|now repeat split].
  match goal with |- context [?x =? 0] => destruct (x =? 0) end; simpl;
    (destruct buf as [bytes|]; simpl;
     [destruct (0 <? size); simpl|]);
    now repeat split.
Qed.

Lemma on_data_keeps_binding (now : Z) (stream : option QuicSpdyClientStream)
      (buf : option (list byte)) (size : Z) (c : BeQuicSpdyClient) :
  current_stream_id_ c <> 0 ->
  current_stream_id_ (fst (on_data now stream buf size c)) =
  current_stream_id_ c.
Proof.
  intros Hbound. destruct c; simpl in Hbound.
  unfold on_data. destruct stream as [st|]; simpl; [|reflexivity].
  match goal with |- context [?x =? 0] => destruct (Z.eqb_spec x 0) end;
    [contradiction|].
  destruct buf as [bytes|]; simpl;
    repeat match goal with
           | |- context [if ?b then _ else _] => destruct b eqn:?; simpl
           end;
    reflexivity.
Qed.

Lemma on_data_calls_keep_latch (calls : list on_data_call) :
  forall c : BeQuicSpdyClient,
    got_first_data_ c = true ->
    got_first_data_ (on_data_calls calls c) = true /\
    content_length_ (on_data_calls calls c) = content_length_ c /\
    first_data_time_ (on_data_calls calls c) = first_data_time_ c.
Proof.
  induction calls as [|call calls IH]; intros c Hgot; [now repeat split|].
  destruct (on_data_keeps_latch (call_now call) (call_stream call)
              (call_buf call) (call_size call) c Hgot) as (Hgot' & Hlen & Htime).
  destruct (IH _ Hgot') as (Hgot'' & Hlen' & Htime').
  unfold on_data_calls in *. simpl fold_left.
  rewrite Hlen', Htime', Hlen, Htime. now repeat split.
Qed.

Lemma on_data_calls_keep_binding (calls : list on_data_call) :
  forall c : BeQuicSpdyClient,
    current_stream_id_ c <> 0 ->
    current_stream_id_ (on_data_calls calls c) = current_stream_id_ c.
Proof.
  induction calls as [|call calls IH]; intros c Hbound; [reflexivity|].
  pose proof (on_data_keeps_binding (call_now call) (call_stream call)
                (call_buf call) (call_size call) c Hbound) as Hstep.
  unfold on_data_calls in *. simpl fold_left.
  rewrite IH; [exact Hstep|]. now rewrite Hstep.
Qed.

(** The first callback on an unbound client that has seen no data.  It
    binds the stream id (when the id is not 0), latches the declared length
    and the arrival time and sets the first-data flag. *)
Lemma on_data_first (now : Z) (st : QuicSpdyClientStream)
      (buf : option (list byte)) (size : Z) (c : BeQuicSpdyClient) :
  got_first_data_ c = false ->
  got_first_data_ (fst (on_data now (Some st) buf size c)) = true /\
  content_length_ (fst (on_data now (Some st) buf size c)) =
    check_content_length st /\
  first_data_time_ (fst (on_data now (Some st) buf size c)) = now /\
  (current_stream_id_ c = 0 ->
   current_stream_id_ (fst (on_data now (Some st) buf size c)) = id st).
Proof.
  intros Hgot. destruct c; simpl in Hgot; subst.
  unfold on_data; simpl.
  match goal with |- context [?x =? 0] => destruct (Z.eqb_spec x 0) end;
    simpl;
    (destruct buf as [bytes|]; simpl;
     [destruct (0 <? size); simpl|]);
    repeat split; intros; try reflexivity; try contradiction.
Qed.

(** X2: The first callback decides: on a client that is unbound and has seen no
    data, after a callback for a stream with a non-zero id and any number of
    further callbacks - whatever streams, lengths and times they carry - the
    client is bound to the first stream's id and holds the length that
    stream declared and the time of that first callback. *)
Theorem first_callback_decides (now : Z) (st : QuicSpdyClientStream)
        (buf : option (list byte)) (size : Z) (rest : list on_data_call)
        (c : BeQuicSpdyClient) :
  current_stream_id_ c = 0 ->
  got_first_data_ c = false ->
  id st <> 0 ->
  current_stream_id_
    (on_data_calls (mkCall now (Some st) buf size :: rest) c) = id st /\
  content_length_
    (on_data_calls (mkCall now (Some st) buf size :: rest) c) =
    check_content_length st /\
  first_data_time_
    (on_data_calls (mkCall now (Some st) buf size :: rest) c) = now /\
  got_first_data_
    (on_data_calls (mkCall now (Some st) buf size :: rest) c) = true.
Proof.
  intros Hunbound Hgot Hid.
  destruct (on_data_first now st buf size c Hgot)
    as (Hgot' & Hlen & Htime & Hbind).
  specialize (Hbind Hunbound).
  change (on_data_calls (mkCall now (Some st) buf size :: rest) c)
    with (on_data_calls rest (fst (on_data now (Some st) buf size c))).
  destruct (on_data_calls_keep_latch rest _ Hgot') as (Hgot'' & Hlen' & Htime').
  rewrite on_data_calls_keep_binding by (now rewrite Hbind).
  rewrite Hlen', Htime', Hlen, Htime, Hbind. now repeat split.
Qed.

Lemma first_callback_decides_witness :
  current_stream_id_ fresh_client = 0 /\
  got_first_data_ fresh_client = false /\
  id (mkStream 5 1000) <> 0 /\
  current_stream_id_
    (on_data_calls
       (mkCall 7 (Some (mkStream 5 1000)) (Some sample_chunk) 6 :: later_calls)
       fresh_client) = id (mkStream 5 1000) /\
  content_length_
    (on_data_calls
       (mkCall 7 (Some (mkStream 5 1000)) (Some sample_chunk) 6 :: later_calls)
       fresh_client) = check_content_length (mkStream 5 1000) /\
  first_data_time_
    (on_data_calls
       (mkCall 7 (Some (mkStream 5 1000)) (Some sample_chunk) 6 :: later_calls)
       fresh_client) = 7 /\
  got_first_data_
    (on_data_calls
       (mkCall 7 (Some (mkStream 5 1000)) (Some sample_chunk) 6 :: later_calls)
       fresh_client) = true.
Proof.
  assert (current_stream_id_ fresh_client = 0) as H1 by reflexivity.
  assert (got_first_data_ fresh_client = false) as H2 by reflexivity.
  assert (id (mkStream 5 1000) <> 0) as H3 by (simpl; lia).
  split; [exact H1|]. split; [exact H2|]. split; [exact H3|].
  exact (first_callback_decides 7 (mkStream 5 1000) (Some sample_chunk) 6
                                later_calls fresh_client H1 H2 H3).
Defined.

(** X3: Closing does not clear the first-data flag.  After a successful
    [close_current_stream] on a client that has seen data, callbacks for a
    new stream bind the new id, but the content length and arrival time stay
    those of the closed stream: what the new stream declares is never read. *)
Theorem close_keeps_first_length (now : Z) (st : QuicSpdyClientStream)
        (buf : option (list byte)) (size : Z) (rest : list on_data_call)
        (s : QuicSession) (c : BeQuicSpdyClient) :
  current_stream_id_ c <> 0 ->
  session c = Some s ->
  got_first_data_ c = true ->
  id st <> 0 ->
  fst (close_current_stream c) = true /\
  current_stream_id_
    (on_data_calls (mkCall now (Some st) buf size :: rest)
                   (snd (close_current_stream c))) = id st /\
  content_length_
    (on_data_calls (mkCall now (Some st) buf size :: rest)
                   (snd (close_current_stream c))) = content_length_ c /\
  first_data_time_
    (on_data_calls (mkCall now (Some st) buf size :: rest)
                   (snd (close_current_stream c))) = first_data_time_ c.
Proof.
  intros Hbound Hsession Hgot Hid.
  rewrite (close_bound_stream c s Hbound Hsession). simpl fst. simpl snd.
  set (c1 := set_response_buff [] _).
  assert (got_first_data_ c1 = true) as Hgot1 by exact Hgot.
  assert (current_stream_id_ c1 = 0) as Hunbound1 by reflexivity.
  split; [reflexivity|].
  destruct (on_data_calls_keep_latch (mkCall now (Some st) buf size :: rest)
              c1 Hgot1) as (_ & Hlen & Htime).
  rewrite Hlen, Htime. split; [|now split].
  change (on_data_calls (mkCall now (Some st) buf size :: rest) c1)
    with (on_data_calls rest (fst (on_data now (Some st) buf size c1))).
  assert (current_stream_id_ (fst (on_data now (Some st) buf size c1)) = id st)
    as Hbind.
  { unfold on_data. rewrite Hunbound1. simpl. rewrite Hgot.
    destruct buf; [destruct (0 <? size)|]; reflexivity. }
  rewrite on_data_calls_keep_binding by (now rewrite Hbind).
  exact Hbind.
Qed.

Lemma close_keeps_first_length_witness :
  current_stream_id_ sample_client <> 0 /\
  session sample_client = Some [] /\
  got_first_data_ sample_client = true /\
  id (mkStream 9 77) <> 0 /\
  fst (close_current_stream sample_client) = true /\
  current_stream_id_
    (on_data_calls (mkCall 9 (Some (mkStream 9 77)) (Some sample_chunk) 6 :: [])
                   (snd (close_current_stream sample_client))) =
    id (mkStream 9 77) /\
  content_length_
    (on_data_calls (mkCall 9 (Some (mkStream 9 77)) (Some sample_chunk) 6 :: [])
                   (snd (close_current_stream sample_client))) =
    content_length_ sample_client /\
  first_data_time_
    (on_data_calls (mkCall 9 (Some (mkStream 9 77)) (Some sample_chunk) 6 :: [])
                   (snd (close_current_stream sample_client))) =
    first_data_time_ sample_client.
Proof.
  assert (current_stream_id_ sample_client <> 0) as H1 by (simpl; lia).
  assert (session sample_client = Some []) as H2 by reflexivity.
  assert (got_first_data_ sample_client = true) as H3 by reflexivity.
  assert (id (mkStream 9 77) <> 0) as H4 by (simpl; lia).
  split; [exact H1|]. split; [exact H2|]. split; [exact H3|].
  split; [exact H4|].
  exact (close_keeps_first_length 9 (mkStream 9 77) (Some sample_chunk) 6 []
                                  [] sample_client H1 H2 H3 H4).
Defined.

(** ** More on sufficiency *)

Lemma is_buffer_sufficient_empty (c : BeQuicSpdyClient) :
  response_buff_ c = [] -> is_buffer_sufficient c = false.
Proof.
  intros Hempty. unfold is_buffer_sufficient, buff_size. rewrite Hempty.
  simpl. now destruct (content_length_ c =? -1).
Qed.

(** X5: The two ends of [is_buffer_sufficient], for every content length and
    read offset (also where their difference wraps): an empty window is
    never sufficient, and a window of at least [kReadBlockSize] bytes always
    is. *)
Theorem is_buffer_sufficient_bounds (c : BeQuicSpdyClient) :
  (response_buff_ c = [] -> is_buffer_sufficient c = false) /\
  (kReadBlockSize <= buff_size c -> is_buffer_sufficient c = true).
Proof.
  unfold is_buffer_sufficient, kReadBlockSize. split.
  - intros Hempty. unfold buff_size. rewrite Hempty. simpl.
    now destruct (content_length_ c =? -1).
  - intros Hfull.
    destruct (content_length_ c =? -1).
    + apply Z.ltb_lt. lia.
    + destruct (Z.eqb_spec (buff_size c) 0); [lia|].
      destruct (to_int64 (content_length_ c - read_offset_ c) <? 32768);
        [reflexivity|].
      destruct (Z.ltb_spec (buff_size c) 32768); [lia|reflexivity].
Qed.

(** X6: Bytes appended to the window never turn a sufficient buffer into an
    insufficient one (content length and read offset as they were). *)
Theorem is_buffer_sufficient_monotone (more : list byte)
        (c : BeQuicSpdyClient) :
  is_buffer_sufficient c = true ->
  is_buffer_sufficient (set_response_buff (response_buff_ c ++ more) c) = true.
Proof.
  unfold is_buffer_sufficient, buff_size, kReadBlockSize. simpl.
  rewrite length_app, Nat2Z.inj_add.
  set (n := Z.of_nat (length (response_buff_ c))).
  set (m := Z.of_nat (length more)).
  assert (0 <= n) by (unfold n; lia). assert (0 <= m) by (unfold m; lia).
  destruct (content_length_ c =? -1).
  - intros Hs%Z.ltb_lt. apply Z.ltb_lt. lia.
  - destruct (Z.eqb_spec n 0); [discriminate|].
    destruct (Z.eqb_spec (n + m) 0); [lia|].
    destruct (to_int64 (content_length_ c - read_offset_ c) <? 32768);
      [reflexivity|].
    destruct (Z.ltb_spec n 32768); [discriminate|].
    destruct (Z.ltb_spec (n + m) 32768); [lia|reflexivity].
Qed.

Lemma is_buffer_sufficient_monotone_witness :
  is_buffer_sufficient tail_client = true /\
  is_buffer_sufficient
    (set_response_buff (response_buff_ tail_client ++ sample_chunk)
                       tail_client) = true.
Proof.
  split; [reflexivity|].
  apply (is_buffer_sufficient_monotone sample_chunk tail_client).
  reflexivity.
Defined.

(** When [on_data] writes, it notifies exactly when the buffer is then
    sufficient. *)
Lemma on_data_notification (now : Z) (st : QuicSpdyClientStream)
      (bytes : list byte) (size : Z) (c : BeQuicSpdyClient) :
  0 < size ->
  snd (on_data now (Some st) (Some bytes) size c) =
  is_buffer_sufficient (fst (on_data now (Some st) (Some bytes) size c)).
Proof.
  intros Hsize. unfold on_data.
  destruct (Z.ltb_spec 0 size); [reflexivity|lia].
Qed.

(** X4: A callback that writes at least one byte wakes the waiting reader in
    two cases at least, whatever the read offset is: when a full block of
    [kReadBlockSize] bytes is retained afterwards, and when the content
    length is (then) unknown. *)
Theorem on_data_notifies (now : Z) (st : QuicSpdyClientStream)
        (bytes : list byte) (size : Z) (c : BeQuicSpdyClient) :
  0 < size <= Z.of_nat (length bytes) ->
  kReadBlockSize
    <= buff_size (fst (on_data now (Some st) (Some bytes) size c))
  \/ content_length_ (fst (on_data now (Some st) (Some bytes) size c)) = -1 ->
  snd (on_data now (Some st) (Some bytes) size c) = true.
Proof.
  intros Hsize Hcase.
  rewrite on_data_notification by lia.
  destruct Hcase as [Hfull | Hunknown].
  - now apply is_buffer_sufficient_bounds.
  - unfold is_buffer_sufficient. rewrite Hunknown, Z.eqb_refl.
    apply Z.ltb_lt. unfold buff_size. rewrite on_data_window.
    destruct (Z.ltb_spec 0 size); [|lia].
    rewrite length_app, length_firstn. lia.
Qed.

Lemma on_data_notifies_witness :
  0 < 6 <= Z.of_nat (length sample_chunk) /\
  (kReadBlockSize
     <= buff_size (fst (on_data 9 (Some (mkStream 5 100000)) (Some sample_chunk)
                                6 full_block_client))
   \/ content_length_
        (fst (on_data 9 (Some (mkStream 5 100000)) (Some sample_chunk)
                      6 full_block_client)) = -1) /\
  snd (on_data 9 (Some (mkStream 5 100000)) (Some sample_chunk)
               6 full_block_client) = true.
Proof.
  assert (0 < 6 <= Z.of_nat (length sample_chunk)) as H1 by (simpl; lia).
  assert (kReadBlockSize
            <= buff_size (fst (on_data 9 (Some (mkStream 5 100000))
                                       (Some sample_chunk) 6 full_block_client))
          \/ content_length_
               (fst (on_data 9 (Some (mkStream 5 100000)) (Some sample_chunk)
                             6 full_block_client)) = -1) as H2.
  { left. vm_compute. discriminate. }
  split; [exact H1|]. split; [exact H2|].
  exact (on_data_notifies 9 (mkStream 5 100000) sample_chunk 6
                          full_block_client H1 H2).
Defined.

(** ** More on reading *)

(** X7: A null buffer or a size of 0 is refused before anything else is looked
    at - also at the end of the stream and whatever is retained - without
    taking the lock, waiting, or touching the state. *)
Theorem read_body_invalid_args (fuel : nat) (buf : pointer)
        (size timeout : Z) (c : BeQuicSpdyClient) :
  buf = NULL \/ size = 0 ->
  read_body fuel buf size timeout c =
  Done (Some (mkRead (Status kBeQuicErrorCode_Invalid_Param) [])) c.
Proof.
  intros [-> | ->]; unfold read_body; [reflexivity|].
  now rewrite orb_true_r.
Qed.

Lemma read_body_invalid_args_witness :
  (NonNull = NULL \/ 0 = 0) /\
  read_body 1 NonNull 0 (-1) drained_client =
  Done (Some (mkRead (Status kBeQuicErrorCode_Invalid_Param) []))
       drained_client.
Proof.
  assert (NonNull = NULL \/ 0 = 0) as H by (right; reflexivity).
  split; [exact H|].
  exact (read_body_invalid_args 1 NonNull 0 (-1) drained_client H).
Defined.

(** With the delivery thread idle and a timeout that is not negative, a
    read that passes the two early exits is the copy step on the state it
    started in: the lock is free, and a timed wait runs out with nothing
    new. *)
Lemma read_body_alone (fuel : nat) (size timeout : Z)
      (c : BeQuicSpdyClient) :
  size <> 0 ->
  0 <= timeout ->
  ~ (0 < content_length_ c /\ content_length_ c <= read_offset_ c) ->
  alone 2 (read_body (S fuel) NonNull size timeout c) =
  Some (Some (fst (copy_out size c)), snd (copy_out size c)).
Proof.
  intros Hsize Htimeout Hnot_eof. rewrite read_body_enters.
  - simpl alone.
    destruct (locked_read_cases fuel size timeout c) as [_ | k _ Hwait Hafter].
    + reflexivity.
    + unfold wait_for. destruct (Z.ltb_spec 0 timeout); [|lia].
      simpl. now rewrite Hafter.
  - simpl. now apply Z.eqb_neq.
  - apply andb_false_iff.
    destruct (Z.ltb_spec 0 (content_length_ c)); [|now left].
    destruct (Z.leb_spec (content_length_ c) (read_offset_ c)); [|now right].
    exfalso. apply Hnot_eof. lia.
Qed.

(** With the delivery thread idle, a read with a negative timeout that
    finds the buffer insufficient waits on the condition and does not
    return. *)
Lemma read_body_blocks (fuel : nat) (size timeout : Z)
      (c : BeQuicSpdyClient) (n : nat) :
  size <> 0 ->
  timeout < 0 ->
  ~ (0 < content_length_ c /\ content_length_ c <= read_offset_ c) ->
  is_buffer_sufficient c = false ->
  alone n (read_body (S fuel) NonNull size timeout c) = None.
Proof.
  intros Hsize Htimeout Hnot_eof Hs. rewrite read_body_enters.
  - destruct n as [|n]; [reflexivity|]. simpl alone.
    destruct (locked_read_wait fuel size timeout c Hs ltac:(lia))
      as (k & Hk & _).
    rewrite Hk. unfold wait_for.
    destruct (Z.ltb_spec 0 timeout); [lia|]. reflexivity.
  - simpl. now apply Z.eqb_neq.
  - apply andb_false_iff.
    destruct (Z.ltb_spec 0 (content_length_ c)); [|now left].
    destruct (Z.leb_spec (content_length_ c) (read_offset_ c)); [|now right].
    exfalso. apply Hnot_eof. lia.
Qed.

(** X8: Near the tail a short window is enough.  When fewer than
    [kReadBlockSize] bytes of a known length remain to be read and the
    window is not empty, a read finds the buffer sufficient as soon as it
    holds the lock: it returns [min size retained] bytes, at least one,
    without waiting on the condition, whatever the timeout. *)
Theorem read_near_tail (fuel : nat) (size timeout : Z)
        (c : BeQuicSpdyClient) :
  0 < size <= INT_MAX ->
  window_in_range c ->
  read_offset_ c < content_length_ c ->
  content_length_ c - read_offset_ c < kReadBlockSize ->
  response_buff_ c <> [] ->
  0 < Z.min size (buff_size c) /\
  alone 1 (read_body (S fuel) NonNull size timeout c) =
  Some (Some (mkRead (Value (Z.min size (buff_size c)))
                     (firstn (Z.to_nat (Z.min size (buff_size c)))
                             (response_buff_ c))),
        set_read_offset (read_offset_ c + Z.min size (buff_size c))
          (set_response_buff
             (skipn (Z.to_nat (Z.min size (buff_size c))) (response_buff_ c))
             c)).
Proof.
  intros Hsize Hrange Hleft Htail Hwindow.
  assert (0 < buff_size c) as Hretained.
  { unfold buff_size. destruct (response_buff_ c); [contradiction|].
    simpl length. lia. }
  split; [lia|].
  assert (is_buffer_sufficient c = true) as Hs.
  { destruct Hrange as (Hoff & _).
    unfold is_buffer_sufficient, kReadBlockSize in *.
    destruct (Z.eqb_spec (content_length_ c) (-1)); [lia|].
    destruct (Z.eqb_spec (buff_size c) 0); [lia|].
    rewrite to_int64_id by lia.
    destruct (Z.ltb_spec (content_length_ c - read_offset_ c) 32768);
      [reflexivity|lia]. }
  rewrite read_body_enters.
  - simpl alone. rewrite locked_read_no_wait by (now left).
    unfold copy_out_and_return.
    now rewrite (copy_out_exact size c Hsize Hrange).
  - simpl. apply Z.eqb_neq. lia.
  - apply andb_false_iff. right. apply Z.leb_gt. lia.
Qed.

Lemma read_near_tail_witness :
  0 < 4096 <= INT_MAX /\
  window_in_range tail_client /\
  read_offset_ tail_client < content_length_ tail_client /\
  content_length_ tail_client - read_offset_ tail_client < kReadBlockSize /\
  response_buff_ tail_client <> [] /\
  0 < Z.min 4096 (buff_size tail_client) /\
  alone 1 (read_body 1 NonNull 4096 (-1) tail_client) =
  Some (Some (mkRead (Value (Z.min 4096 (buff_size tail_client)))
                     (firstn (Z.to_nat (Z.min 4096 (buff_size tail_client)))
                             (response_buff_ tail_client))),
        set_read_offset
          (read_offset_ tail_client + Z.min 4096 (buff_size tail_client))
          (set_response_buff
             (skipn (Z.to_nat (Z.min 4096 (buff_size tail_client)))
                    (response_buff_ tail_client))
             tail_client)).
Proof.
  assert (0 < 4096 <= INT_MAX) as H1 by (unfold INT_MAX; lia).
  assert (window_in_range tail_client) as H2
      by (unfold window_in_range, INT64_MAX; simpl; lia).
  assert (read_offset_ tail_client < content_length_ tail_client) as H3
      by (simpl; lia).
  assert (content_length_ tail_client - read_offset_ tail_client
          < kReadBlockSize) as H4 by (unfold kReadBlockSize; simpl; lia).
  assert (response_buff_ tail_client <> []) as H5 by (simpl; discriminate).
  split; [exact H1|]. split; [exact H2|]. split; [exact H3|].
  split; [exact H4|]. split; [exact H5|].
  exact (read_near_tail 0 4096 (-1) tail_client H1 H2 H3 H4 H5).
Defined.

(** ** More on seeking *)

Lemma seek_resolved_outcome (off whence T : Z) (target_off : pointer)
      (c : BeQuicSpdyClient) :
  resolve_offset off whence c = Some T ->
  seek_outcome off whence c (seek_resolved T target_off c).
Proof.
  intros Hres. unfold seek_resolved.
  destruct (Z.ltb_spec T 0); [apply seek_same|].
  destruct (Z.ltb_spec 0 (to_int64 (T - read_offset_ c)));
    destruct (Z.ltb_spec (to_int64 (T - read_offset_ c))
                         (to_int64 (buff_size c)));
    simpl; try apply seek_same.
  apply seek_moved; [assumption|lia|lia].
Qed.

Lemma seek_in_buffer_outcome (off whence : Z) (target_off : pointer)
      (c : BeQuicSpdyClient) :
  seek_outcome off whence c (seek_in_buffer off whence target_off c).
Proof.
  unfold seek_in_buffer.
  destruct (content_length_ c =? -1); [apply seek_same|].
  destruct (whence =? AVSEEK_SIZE).
  { apply seek_same. }
  destruct ((whence =? SEEK_CUR) && (off =? 0)
            || (whence =? SEEK_SET) && (off =? read_offset_ c)).
  { apply seek_same. }
  simpl.
  destruct (resolve_offset off whence c) as [T|] eqn:Hres.
  - now apply seek_resolved_outcome.
  - apply seek_same.
Qed.

(** X9: What no seek does.  For every argument and state, [seek_in_buffer]
    leaves the stream id, the first-data flag, the content length, the
    arrival time and the session alone; the window afterwards is the old
    window without some of its first bytes; and a call that returns a status
    instead of a position changes nothing at all. *)
Theorem seek_in_buffer_frame (off whence : Z) (target_off : pointer)
        (c : BeQuicSpdyClient) :
  current_stream_id_ (snd (seek_in_buffer off whence target_off c)) =
    current_stream_id_ c /\
  got_first_data_ (snd (seek_in_buffer off whence target_off c)) =
    got_first_data_ c /\
  content_length_ (snd (seek_in_buffer off whence target_off c)) =
    content_length_ c /\
  first_data_time_ (snd (seek_in_buffer off whence target_off c)) =
    first_data_time_ c /\
  session (snd (seek_in_buffer off whence target_off c)) = session c /\
  (exists n,
     response_buff_ (snd (seek_in_buffer off whence target_off c)) =
     skipn n (response_buff_ c)) /\
  (forall e,
     seek_ret (fst (seek_in_buffer off whence target_off c)) = Status e ->
     snd (seek_in_buffer off whence target_off c) = c).
Proof.
  destruct (seek_in_buffer_outcome off whence target_off c)
    as [r | T _ _ _]; simpl.
  - repeat split; try reflexivity. now exists 0%nat.
  - repeat split; try reflexivity.
    + eexists. reflexivity.
    + discriminate.
Qed.

(** X10: The end of the retained window does not move under a seek.  On a state
    whose window is in range, for an [int64_t] offset argument, every seek
    keeps [read_offset_ + retained size], never moves [read_offset_]
    backward, and keeps the window in range. *)
Theorem seek_keeps_window_end (off whence : Z) (target_off : pointer)
        (c : BeQuicSpdyClient) :
  window_in_range c ->
  - 2 ^ 63 <= off < 2 ^ 63 ->
  read_offset_ c <= read_offset_ (snd (seek_in_buffer off whence target_off c))
  /\
  read_offset_ (snd (seek_in_buffer off whence target_off c))
    + buff_size (snd (seek_in_buffer off whence target_off c)) =
  read_offset_ c + buff_size c
  /\
  window_in_range (snd (seek_in_buffer off whence target_off c)).
Proof.
  intros Hrange Hoff.
  destruct (seek_in_buffer_outcome off whence target_off c)
    as [r | T Hres HT Hhit]; simpl.
  - split; [lia|]. split; [reflexivity|exact Hrange].
  - pose proof (resolve_offset_range off whence T c Hoff Hres) as HT'.
    pose proof (buff_size_nonneg c) as Hsize.
    destruct Hrange as (Hro & Hend). unfold INT64_MAX in *.
    rewrite !to_int64_id in Hhit by lia.
    rewrite to_int64_id by lia.
    unfold window_in_range, buff_size, consume, INT64_MAX in *. simpl.
    rewrite length_skipn. lia.
Qed.

Lemma seek_keeps_window_end_witness :
  window_in_range window_100_500 /\
  - 2 ^ 63 <= 200 < 2 ^ 63 /\
  read_offset_ window_100_500
  <= read_offset_ (snd (seek_in_buffer 200 SEEK_CUR NULL window_100_500))
  /\
  read_offset_ (snd (seek_in_buffer 200 SEEK_CUR NULL window_100_500))
    + buff_size (snd (seek_in_buffer 200 SEEK_CUR NULL window_100_500)) =
  read_offset_ window_100_500 + buff_size window_100_500
  /\
  window_in_range (snd (seek_in_buffer 200 SEEK_CUR NULL window_100_500)).
Proof.
  assert (window_in_range window_100_500) as H1
      by (unfold window_in_range, INT64_MAX; simpl; lia).
  assert (- 2 ^ 63 <= 200 < 2 ^ 63) as H2 by lia.
  split; [exact H1|]. split; [exact H2|].
  exact (seek_keeps_window_end 200 SEEK_CUR NULL window_100_500 H1 H2).
Defined.

(** X11: Bad requests.  With the length known and the read offset a non-negative
    [int64_t], a [whence] that is none of [SEEK_SET], [SEEK_CUR], [SEEK_END]
    and [AVSEEK_SIZE], or a request that resolves to a negative offset, is
    answered with the invalid-parameter status; nothing is stored through
    [target_off] and the state stays as it is. *)
Theorem seek_invalid_param (off whence : Z) (target_off : pointer)
        (c : BeQuicSpdyClient) :
  content_length_ c <> -1 ->
  0 <= read_offset_ c < 2 ^ 63 ->
  (whence <> SEEK_SET /\ whence <> SEEK_CUR /\ whence <> SEEK_END /\
   whence <> AVSEEK_SIZE)
  \/ (exists T, resolve_offset off whence c = Some T /\ T < 0) ->
  seek_in_buffer off whence target_off c =
  (mkSeek (Status kBeQuicErrorCode_Invalid_Param) None, c).
Proof.
  intros Hknown Hro Hbad. unfold seek_in_buffer.
  destruct (Z.eqb_spec (content_length_ c) (-1)); [contradiction|].
  destruct Hbad as [(Hset & Hcur & Hend & Hsize) | (T & Hres & Hneg)].
  - unfold resolve_offset.
    destruct (Z.eqb_spec whence AVSEEK_SIZE); [contradiction|].
    destruct (Z.eqb_spec whence SEEK_CUR); [contradiction|].
    destruct (Z.eqb_spec whence SEEK_SET); [contradiction|].
    destruct (Z.eqb_spec whence SEEK_END); [contradiction|].
    reflexivity.
  - destruct (Z.eqb_spec whence AVSEEK_SIZE) as [->|_]; [discriminate Hres|].
    assert ((whence =? SEEK_CUR) && (off =? 0)
            || (whence =? SEEK_SET) && (off =? read_offset_ c) = false)
      as Hnot_noop.
    { apply orb_false_iff. split; apply andb_false_iff.
      - destruct (Z.eqb_spec whence SEEK_CUR) as [->|]; [|now left].
        destruct (Z.eqb_spec off 0) as [->|]; [|now right].
        exfalso. unfold resolve_offset in Hres. simpl in Hres.
        rewrite to_int64_id in Hres by lia. injection Hres as <-. lia.
      - destruct (Z.eqb_spec whence SEEK_SET) as [->|]; [|now left].
        destruct (Z.eqb_spec off (read_offset_ c)) as [->|]; [|now right].
        exfalso. unfold resolve_offset in Hres. simpl in Hres.
        injection Hres as <-. lia. }
    rewrite Hnot_noop, Hres. simpl. unfold seek_resolved.
    destruct (Z.ltb_spec T 0); [reflexivity|lia].
Qed.

Lemma seek_invalid_param_witness :
  content_length_ sample_client <> -1 /\
  0 <= read_offset_ sample_client < 2 ^ 63 /\
  ((SEEK_CUR <> SEEK_SET /\ SEEK_CUR <> SEEK_CUR /\ SEEK_CUR <> SEEK_END /\
    SEEK_CUR <> AVSEEK_SIZE)
   \/ (exists T,
         resolve_offset (-101) SEEK_CUR sample_client = Some T /\ T < 0)) /\
  seek_in_buffer (-101) SEEK_CUR NonNull sample_client =
  (mkSeek (Status kBeQuicErrorCode_Invalid_Param) None, sample_client).
Proof.
  assert (content_length_ sample_client <> -1) as H1 by (simpl; lia).
  assert (0 <= read_offset_ sample_client < 2 ^ 63) as H2 by (simpl; lia).
  assert ((SEEK_CUR <> SEEK_SET /\ SEEK_CUR <> SEEK_CUR /\
           SEEK_CUR <> SEEK_END /\ SEEK_CUR <> AVSEEK_SIZE)
          \/ (exists T,
                resolve_offset (-101) SEEK_CUR sample_client = Some T /\ T < 0))
    as H3.
  { right. exists (-1). split; [reflexivity|lia]. }
  split; [exact H1|]. split; [exact H2|]. split; [exact H3|].
  exact (seek_invalid_param (-101) SEEK_CUR NonNull sample_client H1 H2 H3).
Defined.

Example seek_bad_whence :
  seek_in_buffer 10 3 NonNull sample_client =
  (mkSeek (Status kBeQuicErrorCode_Invalid_Param) None, sample_client).
Proof. reflexivity. Qed.

(** ** Offsets over whole runs *)

(** The copy step moves the offset by the number of bytes it hands over, for
    every size argument, on a state whose window is in range. *)
Lemma copy_out_offset (size : Z) (c : BeQuicSpdyClient) :
  window_in_range c ->
  read_offset_ (snd (copy_out size c)) =
  read_offset_ c + Z.of_nat (length (read_data (fst (copy_out size c)))).
Proof.
  intros (Hro & Hend). unfold copy_out.
  pose proof (Z.mod_pos_bound size (2 ^ 64) ltac:(lia)) as Hsize.
  fold (to_size_t size) in Hsize.
  pose proof (buff_size_nonneg c) as Hretained.
  set (n := Z.min (to_size_t size) (buff_size c)).
  assert (0 <= n <= buff_size c) as Hn by (unfold n; lia).
  destruct (Z.eqb_spec n 0); simpl; [lia|].
  rewrite length_firstn. unfold buff_size, INT64_MAX in *.
  rewrite to_int64_id by lia. lia.
Qed.

Lemma locked_read_accounts (fuel : nat) (size timeout : Z)
      (c : BeQuicSpdyClient) :
  window_in_range c ->
  accounts c (locked_read (S fuel) size timeout c).
Proof.
  intros Hrange.
  destruct (locked_read_cases fuel size timeout c) as [_ | k _ _ Hafter].
  - apply accounts_done; [apply copy_out_splits|now apply copy_out_offset].
  - apply accounts_yield; [reflexivity|reflexivity|].
    intros c' Hrange'. rewrite Hafter.
    apply accounts_done; [apply copy_out_splits|now apply copy_out_offset].
Qed.

Lemma read_body_accounts (fuel : nat) (buf : pointer) (size timeout : Z)
      (c : BeQuicSpdyClient) :
  accounts c (read_body (S fuel) buf size timeout c).
Proof.
  unfold read_body.
  destruct (is_null buf || (size =? 0));
    [apply accounts_done; simpl; [reflexivity|lia]|].
  destruct ((0 <? content_length_ c) && (content_length_ c <=? read_offset_ c));
    [apply accounts_done; simpl; [reflexivity|lia]|].
  change ((yield_at AcquireLock;;; locked_read (S fuel) size timeout) c)
    with (Yield AcquireLock c (fun c' => locked_read (S fuel) size timeout c')).
  apply accounts_yield; [reflexivity|reflexivity|].
  intros c' Hrange'. now apply locked_read_accounts.
Qed.

Lemma settle_accounts (c0 : BeQuicSpdyClient) (got : list byte)
      (b : blocking (option read_result)) :
  window_in_range c0 ->
  accounts c0 b ->
  pending_accounts (settle b got) /\
  window_in_range (client (settle b got)) /\
  read_offset_ (client (settle b got)) + buff_size (client (settle b got)) =
    read_offset_ c0 + buff_size c0 /\
  read_offset_ (client (settle b got))
    - Z.of_nat (length (received (settle b got))) =
    read_offset_ c0 - Z.of_nat (length got).
Proof.
  intros (Hro & Hend) H.
  destruct H as [r c Hw Hoff | y c k Hw Hoff Hk]; simpl;
    unfold window_in_range, buff_size in *.
  - rewrite Hw, !length_app in *. repeat split; try exact I; lia.
  - rewrite Hw, Hoff. repeat split; try exact Hk; lia.
Qed.

(** One action, on a system whose window stays in range when the chunk of
    the action is added. *)
Lemma step_accounts (fuel : nat) (s : system) (a : action) :
  pending_accounts s ->
  0 <= read_offset_ (client s) ->
  read_offset_ (client s) + buff_size (client s)
    + Z.of_nat (length (chunk_of a)) <= INT64_MAX ->
  pending_accounts (step (S fuel) s a) /\
  window_in_range (client (step (S fuel) s a)) /\
  read_offset_ (client (step (S fuel) s a))
    + buff_size (client (step (S fuel) s a)) =
    read_offset_ (client s) + buff_size (client s)
    + Z.of_nat (length (chunk_of a)) /\
  read_offset_ (client (step (S fuel) s a))
    - Z.of_nat (length (received (step (S fuel) s a))) =
    read_offset_ (client s) - Z.of_nat (length (received s)).
Proof.
  intros Hp Hro Hend. unfold step.
  destruct a as [now st chunk | buf size timeout | ]; simpl chunk_of in *.
  - unfold pending_accounts in *.
    destruct (on_data_fields now (Some st) (Some chunk)
                (Z.of_nat (length chunk)) (client s)) as (Hoff & _).
    pose proof (on_data_appends now st chunk (client s)) as Hwin.
    assert (forall p, pending (mkSystem
              (fst (on_data now (Some st) (Some chunk)
                            (Z.of_nat (length chunk)) (client s)))
              p (received s)) = p) as Hsame by reflexivity.
    destruct (pending s) eqn:Hpend; cbn [client received pending];
      unfold window_in_range, buff_size in *;
      rewrite Hoff, Hwin, length_app;
      (split; [exact Hp|]); repeat split; lia.
  - simpl length in Hend. rewrite Z.add_0_r in *.
    destruct (pending s) eqn:Hpend.
    + unfold pending_accounts in *. rewrite Hpend in *.
      split; [exact Hp|]. unfold window_in_range. repeat split; lia.
    + apply settle_accounts; [unfold window_in_range; lia|].
      apply read_body_accounts.
  - simpl length in Hend. rewrite Z.add_0_r in *.
    unfold pending_accounts in Hp.
    destruct (pending s) as [k|] eqn:Hpend.
    + apply settle_accounts; [unfold window_in_range; lia|].
      apply Hp. unfold window_in_range; lia.
    + unfold pending_accounts, window_in_range. rewrite Hpend.
      repeat split; try assumption; try exact I; lia.
Qed.

Lemma run_accounts (fuel : nat) (sched : list action) :
  forall s : system,
    pending_accounts s ->
    0 <= read_offset_ (client s) ->
    read_offset_ (client s) + buff_size (client s)
      + Z.of_nat (length (delivered sched)) <= INT64_MAX ->
    read_offset_ (client (run (S fuel) sched s))
      + buff_size (client (run (S fuel) sched s)) =
      read_offset_ (client s) + buff_size (client s)
      + Z.of_nat (length (delivered sched)) /\
    read_offset_ (client (run (S fuel) sched s))
      - Z.of_nat (length (received (run (S fuel) sched s))) =
      read_offset_ (client s) - Z.of_nat (length (received s)).
Proof.
  induction sched as [|a sched IH]; intros s Hp Hro Hend.
  - simpl. split; lia.
  - rewrite delivered_chunks, length_app, Nat2Z.inj_add in Hend.
    destruct (step_accounts fuel s a Hp Hro) as (Hp' & (Hro' & _) & Hend' & Hgot');
      [lia|].
    destruct (IH _ Hp' Hro') as (Hend'' & Hgot''); [lia|].
    unfold run in *. simpl fold_left.
    rewrite delivered_chunks, length_app, Nat2Z.inj_add. split; lia.
Qed.

(** X12: The read offset counts the bytes handed over.  Start with an empty
    window at a non-negative offset and let deliveries and reads interleave
    in any way (no seek, no close), the offsets staying within [int64_t]:
    at every point [read_offset_] is the starting offset plus the number of
    bytes the reads have returned, and the end of the window is the starting
    offset plus the number of bytes delivered. *)
Theorem read_offset_counts (fuel : nat) (sched : list action)
        (c : BeQuicSpdyClient) :
  response_buff_ c = [] ->
  0 <= read_offset_ c ->
  read_offset_ c + Z.of_nat (length (delivered sched)) <= INT64_MAX ->
  read_offset_ (client (run (S fuel) sched (mkSystem c None []))) =
    read_offset_ c
    + Z.of_nat (length (received (run (S fuel) sched (mkSystem c None []))))
  /\
  read_offset_ (client (run (S fuel) sched (mkSystem c None [])))
    + buff_size (client (run (S fuel) sched (mkSystem c None []))) =
    read_offset_ c + Z.of_nat (length (delivered sched)).
Proof.
  intros Hempty Hro Hend.
  assert (buff_size c = 0) as Hsize by (unfold buff_size; now rewrite Hempty).
  destruct (run_accounts fuel sched (mkSystem c None []) I) as (Hwin & Hgot);
    cbn [client received]; [lia|lia|].
  cbn [client received length] in Hwin, Hgot. split; lia.
Qed.

Lemma read_offset_counts_witness :
  response_buff_ (new_client None) = [] /\
  0 <= read_offset_ (new_client None) /\
  read_offset_ (new_client None)
    + Z.of_nat (length (delivered sample_schedule)) <= INT64_MAX /\
  read_offset_
    (client (run 1 sample_schedule (mkSystem (new_client None) None []))) =
    read_offset_ (new_client None)
    + Z.of_nat
        (length (received (run 1 sample_schedule
                               (mkSystem (new_client None) None []))))
  /\
  read_offset_
    (client (run 1 sample_schedule (mkSystem (new_client None) None [])))
    + buff_size
        (client (run 1 sample_schedule (mkSystem (new_client None) None []))) =
    read_offset_ (new_client None)
    + Z.of_nat (length (delivered sample_schedule)).
Proof.
  assert (response_buff_ (new_client None) = []) as H1 by reflexivity.
  assert (0 <= read_offset_ (new_client None)) as H2 by (simpl; lia).
  assert (read_offset_ (new_client None)
          + Z.of_nat (length (delivered sample_schedule)) <= INT64_MAX) as H3
      by (unfold INT64_MAX; simpl; lia).
  split; [exact H1|]. split; [exact H2|]. split; [exact H3|].
  exact (read_offset_counts 0 sample_schedule (new_client None) H1 H2 H3).
Defined.

(** ** Seeking, then reading *)

(** X13: After a buffer hit the next read starts at the target.  With the
    length known, a request that resolves to [T] strictly inside the window
    returns [T]; a read issued right after it with a timeout that is not
    negative (delivery thread idle, [T] before the end of the stream)
    returns the bytes of the old window from position [T - read_offset_]
    on, [min size (window end - T)] of them, and leaves the read offset at
    [T] plus that count. *)
Theorem seek_then_read (fuel : nat) (off whence T : Z) (target_off : pointer)
        (size timeout : Z) (c : BeQuicSpdyClient) :
  content_length_ c <> -1 ->
  window_in_range c ->
  - 2 ^ 63 <= off < 2 ^ 63 ->
  resolve_offset off whence c = Some T ->
  read_offset_ c < T < read_offset_ c + buff_size c ->
  T < content_length_ c ->
  0 < size <= INT_MAX ->
  0 <= timeout ->
  seek_ret (fst (seek_in_buffer off whence target_off c)) = Value T /\
  alone 2 (read_body (S fuel) NonNull size timeout
                     (snd (seek_in_buffer off whence target_off c))) =
  Some
    (Some (mkRead
             (Value (Z.min size (read_offset_ c + buff_size c - T)))
             (firstn (Z.to_nat (Z.min size (read_offset_ c + buff_size c - T)))
                     (skipn (Z.to_nat (T - read_offset_ c))
                            (response_buff_ c)))),
     set_read_offset (T + Z.min size (read_offset_ c + buff_size c - T))
       (set_response_buff
          (skipn (Z.to_nat (Z.min size (read_offset_ c + buff_size c - T)))
                 (skipn (Z.to_nat (T - read_offset_ c)) (response_buff_ c)))
          c)).
Proof.
  intros Hknown Hrange Hoff Hres Hin Hbefore_end Hsize Htimeout.
  pose proof Hrange as (Hro & Hend).
  assert (to_int64 (read_offset_ c) = read_offset_ c) as Hro64
      by (apply to_int64_id; unfold INT64_MAX in *;
          pose proof (buff_size_nonneg c); lia).
  assert (~ (whence = SEEK_CUR /\ off = 0)) as Hcur.
  { intros (-> & ->). unfold resolve_offset in Hres. simpl in Hres.
    rewrite Hro64 in Hres. injection Hres as <-. lia. }
  assert (~ (whence = SEEK_SET /\ off = read_offset_ c)) as Hset.
  { intros (-> & ->). unfold resolve_offset in Hres. simpl in Hres.
    injection Hres as <-. lia. }
  rewrite (seek_in_buffer_resolves off whence T target_off c
             Hknown Hres Hcur Hset).
  rewrite (seek_resolved_hit T target_off c Hrange Hin).
  split; [reflexivity|]. cbn [snd].
  set (c1 := set_read_offset T _).
  assert (buff_size c1 = read_offset_ c + buff_size c - T) as Hsize1.
  { unfold c1, buff_size. simpl. rewrite length_skipn.
    unfold buff_size in Hin. lia. }
  assert (window_in_range c1) as Hrange1.
  { unfold window_in_range. rewrite Hsize1. unfold c1. simpl. lia. }
  rewrite read_body_alone.
  - rewrite (copy_out_exact size c1 Hsize Hrange1), Hsize1. reflexivity.
  - lia.
  - exact Htimeout.
  - unfold c1. simpl. lia.
Qed.

Lemma seek_then_read_witness :
  content_length_ window_100_500 <> -1 /\
  window_in_range window_100_500 /\
  - 2 ^ 63 <= 200 < 2 ^ 63 /\
  resolve_offset 200 SEEK_CUR window_100_500 = Some 300 /\
  read_offset_ window_100_500 < 300
  < read_offset_ window_100_500 + buff_size window_100_500 /\
  300 < content_length_ window_100_500 /\
  0 < 4 <= INT_MAX /\
  0 <= 50 /\
  seek_ret (fst (seek_in_buffer 200 SEEK_CUR NULL window_100_500)) =
  Value 300 /\
  alone 2 (read_body 1 NonNull 4 50
                     (snd (seek_in_buffer 200 SEEK_CUR NULL window_100_500))) =
  Some
    (Some (mkRead (Value 4) (repeat Byte.x2a 4)),
     mkClient 5 true 1000 0 304 (repeat Byte.x2a 196) (Some [])).
Proof.
  assert (content_length_ window_100_500 <> -1) as H1 by (simpl; lia).
  assert (window_in_range window_100_500) as H2
      by (unfold window_in_range, INT64_MAX; simpl; lia).
  assert (- 2 ^ 63 <= 200 < 2 ^ 63) as H3 by lia.
  assert (resolve_offset 200 SEEK_CUR window_100_500 = Some 300) as H4
      by reflexivity.
  assert (read_offset_ window_100_500 < 300
          < read_offset_ window_100_500 + buff_size window_100_500) as H5
      by (simpl; lia).
  assert (300 < content_length_ window_100_500) as H6 by (simpl; lia).
  assert (0 < 4 <= INT_MAX) as H7 by (unfold INT_MAX; lia).
  assert (0 <= 50) as H8 by lia.
  split; [exact H1|]. split; [exact H2|]. split; [exact H3|].
  split; [exact H4|]. split; [exact H5|]. split; [exact H6|].
  split; [exact H7|]. split; [exact H8|].
  exact (seek_then_read 0 200 SEEK_CUR 300 NULL 4 50 window_100_500
                        H1 H2 H3 H4 H5 H6 H7 H8).
Defined.

(** ** Closing, then reading *)

(** X14: Nothing of a closed stream is read, and closing wakes nobody.
    After a successful [close_current_stream] the window is empty and the
    offset is 0, so a read with a non-null buffer and a non-zero size is
    not at the end of the stream and finds the buffer insufficient.  With
    the delivery thread idle: for a timeout that is not negative it returns
    0 bytes and leaves the state as the close left it; for a negative
    timeout it waits on the condition and does not return. *)
Theorem close_then_read (fuel : nat) (size timeout : Z) (s : QuicSession)
        (c : BeQuicSpdyClient) :
  current_stream_id_ c <> 0 ->
  session c = Some s ->
  size <> 0 ->
  is_buffer_sufficient (snd (close_current_stream c)) = false /\
  (0 <= timeout ->
   alone 2 (read_body (S fuel) NonNull size timeout
                      (snd (close_current_stream c))) =
   Some (Some (mkRead (Value 0) []), snd (close_current_stream c))) /\
  (timeout < 0 ->
   forall n,
     alone n (read_body (S fuel) NonNull size timeout
                        (snd (close_current_stream c))) = None).
Proof.
  intros Hbound Hsession Hsize.
  rewrite (close_bound_stream c s Hbound Hsession). cbn [snd].
  set (c1 := set_response_buff [] _).
  assert (is_buffer_sufficient c1 = false) as Hs
      by (now apply is_buffer_sufficient_empty).
  assert (~ (0 < content_length_ c1 /\ content_length_ c1 <= read_offset_ c1))
    as Hnot_eof by (unfold c1; simpl; lia).
  split; [exact Hs|]. split.
  - intros Htimeout. rewrite read_body_alone by assumption.
    unfold copy_out.
    replace (buff_size c1) with 0 by reflexivity.
    pose proof (Z.mod_pos_bound size (2 ^ 64) ltac:(lia)) as Hpos.
    fold (to_size_t size) in Hpos.
    rewrite Z.min_r by lia. reflexivity.
  - intros Htimeout n. now apply read_body_blocks.
Qed.

Lemma close_then_read_witness :
  current_stream_id_ sample_client <> 0 /\
  session sample_client = Some [] /\
  4096 <> 0 /\
  0 <= 50 /\
  - 1 < 0 /\
  alone 2 (read_body 1 NonNull 4096 50
                     (snd (close_current_stream sample_client))) =
  Some (Some (mkRead (Value 0) []), snd (close_current_stream sample_client))
  /\
  alone 7 (read_body 1 NonNull 4096 (-1)
                     (snd (close_current_stream sample_client))) = None.
Proof.
  assert (current_stream_id_ sample_client <> 0) as H1 by (simpl; lia).
  assert (session sample_client = Some []) as H2 by reflexivity.
  assert (4096 <> 0) as H3 by lia.
  assert (0 <= 50) as H4 by lia.
  assert (- 1 < 0) as H5 by lia.
  split; [exact H1|]. split; [exact H2|]. split; [exact H3|].
  split; [exact H4|]. split; [exact H5|].
  split.
  - exact (proj1 (proj2 (close_then_read 0 4096 50 [] sample_client H1 H2 H3))
                 H4).
  - exact (proj2 (proj2 (close_then_read 0 4096 (-1) [] sample_client
                                         H1 H2 H3)) H5 7%nat).
Defined.
